(** * a2tex: author list to LaTeX — a shallow embedding of [a2tex.py]

    The script turns the rows of an author CSV file into a LaTeX
    author/affiliation block and a one-line arXiv author list.  This file
    embeds the classes [Author] and [AffiliationList], the helpers
    [firstnames_to_initials] and [latex_escape], and the body of [main], and
    proves what the code does.

    Python values are modelled as follows.
    - [str] is a list of Unicode code points ([Z]); [lit] turns a Rocq string
      literal into one.
    - [int] is [Z]; [//] and [%] with a positive divisor are [Z.div] and
      [Z.modulo].
    - A call either returns or raises: [exc A], with [Return] and [Raise].
    - An object that is mutated ([AffiliationList._list], [author_list]) is
      passed and returned explicitly.
    - A file is the text written to it by a run that reaches its end; what a
      run that raises has written before is not kept.  Writing goes through
      [write], the UTF-8 encoding step of the file object, and opening a
      file for writing through [open_w], whose outcome the environment
      decides.
    - A row has its four cells, each a string.

    The interpreter is Python 3.9 or later, as the guard at the head of the
    script demands. *)

From Stdlib Require Import ZArith String Ascii DecimalString Bool List Lia.
From Stdlib Require Import Permutation Sorted.
Import ListNotations.

Local Open Scope Z_scope.

(** ** Strings *)

Definition char := Z.
Definition str := list char.

Definition lit (s : string) : str :=
  map (fun a => Z.of_N (N_of_ascii a)) (list_ascii_of_string s).

Definition str_eq_dec : forall a b : str, {a = b} + {a <> b} :=
  list_eq_dec Z.eq_dec.

Definition str_eqb (a b : str) : bool :=
  if str_eq_dec a b then true else false.

(** ** Outcomes of a call *)

Inductive exception :=
| IndexError
| ValueError
| KeyError
| AttributeError
| OSError
| CsvError
| UnicodeEncodeError
| SystemExit (code : Z).

Inductive exc (A : Type) :=
| Return (a : A)
| Raise (e : exception).
Arguments Return {A} a.
Arguments Raise {A} e.

Definition bind {A B} (m : exc A) (k : A -> exc B) : exc B :=
  match m with
  | Return a => k a
  | Raise e => Raise e
  end.

Notation "x <- m ;; k" := (bind m (fun x => k))
  (at level 61, m at next level, right associativity).

(** [chr(i)]: the one-character string of code point [i]; [ValueError]
    outside [range(0x110000)]. *)
Definition chr (i : Z) : exc char :=
  if (0 <=? i) && (i <? 0x110000) then Return i else Raise ValueError.

(** [ord('a')] *)
Definition ord_a : Z := 97.

(** [str(n)] for an [int]. *)
Definition str_of_int (n : Z) : str :=
  lit (NilZero.string_of_int (Z.to_int n)).

(** ** Constants of the module *)

Definition EXIT_STATUS_SUCCESS : Z := 0.
Definition EXIT_STATUS_OPTION_ERROR : Z := 3.
Definition EXIT_STATUS_FAILURE : Z := 5.

Definition AUTHOR_FILE_DEFAULT : str := lit "authors.csv".
Definition ARXIV_AUTHOR_FILE_DEFAULT : str := lit "hep-eppsu-software-authors.arxiv".
Definition LATEX_AUTHOR_FILE_DEFAULT : str := lit "hep-eppsu-software-authors.tex".
Definition ARXIV_AUTHORS_PREFIX_DEFAULT : str := lit "HEP Software Foundation: ".

Definition AFFILIATION_USE_LETTERS : bool := true.

(** ** class AffiliationList *)

(** An affiliation ID: a [str] in letter mode, an [int] in number mode. *)
Inductive index :=
| Letters (s : str)
| Number (n : Z).

Record AffiliationList := mkAffiliationList {
  _list : list str;
  _index_letter : bool
}.

(** [AffiliationList.__init__] *)
Definition AffiliationList_init (index_letter : bool) : AffiliationList :=
  mkAffiliationList [] index_letter.

(** [list.index(x)]: position of the first element equal to [x]; [None]
    stands for the [ValueError] that [get_id] catches. *)
Fixpoint list_index (x : str) (l : list str) : option nat :=
  match l with
  | [] => None
  | y :: l' =>
      if str_eq_dec y x then Some O
      else match list_index x l' with
           | Some n => Some (S n)
           | None => None
           end
  end.

(** The ID built from [affiliation_index] in [get_id] (the [if
    self._index_letter] statement). *)
Definition derive_id (index_letter : bool) (affiliation_index : Z)
  : exc index :=
  if index_letter then
    let high_order := affiliation_index / 26 in
    id <- (if 0 <? high_order
           then c <- chr (ord_a + high_order - 1) ;; Return [c]
           else Return []) ;;
    c <- chr (ord_a + affiliation_index mod 26) ;;
    Return (Letters (id ++ [c]))
  else
    Return (Number (affiliation_index + 1)).

(** [AffiliationList.get_id]: [Return None] is Python's [None]. *)
Definition get_id (self : AffiliationList) (affiliation : str)
  : exc (option index) :=
  match list_index affiliation (_list self) with
  | None => Return None
  | Some affiliation_index =>
      id <- derive_id (_index_letter self) (Z.of_nat affiliation_index) ;;
      Return (Some id)
  end.

(** [AffiliationList.add]: the list after the append, and the result of the
    [get_id] call on it. *)
Definition add (self : AffiliationList) (affiliation : str)
  : AffiliationList * exc (option index) :=
  let self' := mkAffiliationList (_list self ++ [affiliation])
                                 (_index_letter self) in
  (self', get_id self' affiliation).

(** The registry after [add] has been called with each string of [xs] in
    turn. *)
Definition adds (self : AffiliationList) (xs : list str) : AffiliationList :=
  fold_left (fun self a => fst (add self a)) xs self.

(** ** class Author *)

Record Author := mkAuthor {
  name : str;
  affiliation_id : option index;
  orcid : option str
}.

(** [Author.__init__]: [if orcid:] is false for [None] and for the empty
    string. *)
Definition Author_init (name : str) (affiliation_id : option index)
                       (orcid : option str) : Author :=
  mkAuthor name affiliation_id
           (match orcid with
            | Some (c :: o) => Some (c :: o)
            | Some [] => None
            | None => None
            end).

(** ** Text helpers *)

(** The characters matched by [\s] in a [str] pattern: the Unicode
    whitespace characters, which are also those removed by [str.strip()]. *)
Definition is_space (c : char) : bool :=
  ((0x09 <=? c) && (c <=? 0x0D)) || ((0x1C <=? c) && (c <=? 0x20))
  || (c =? 0x85) || (c =? 0xA0) || (c =? 0x1680)
  || ((0x2000 <=? c) && (c <=? 0x200A))
  || (c =? 0x2028) || (c =? 0x2029) || (c =? 0x202F) || (c =? 0x205F)
  || (c =? 0x3000).

(** [re.split('\s', s)]: a cut at every single whitespace character. *)
Fixpoint re_split_space (s : str) : list str :=
  match s with
  | [] => [[]]
  | c :: r =>
      if is_space c then [] :: re_split_space r
      else match re_split_space r with
           | t :: ts => (c :: t) :: ts
           | [] => [[c]]
           end
  end.

Fixpoint lstrip (s : str) : str :=
  match s with
  | [] => []
  | c :: r => if is_space c then lstrip r else s
  end.

(** [str.strip()] *)
Definition strip (s : str) : str := rev (lstrip (rev (lstrip s))).

(** [str.capitalize] belongs to the Python runtime and follows the Unicode
    case tables.  The code only relies on its result being empty exactly for
    the empty string. *)
Class Capitalize := {
  capitalize : str -> str;
  capitalize_nil : capitalize [] = [];
  capitalize_cons : forall c s, capitalize (c :: s) <> []
}.

(** [capitalize] on ASCII letters; other code points are left unchanged.
    It agrees with [str.capitalize] on ASCII input and serves the closed
    examples only; the theorems hold for every instance. *)
Definition ascii_upper (c : char) : char :=
  if (97 <=? c) && (c <=? 122) then c - 32 else c.
Definition ascii_lower (c : char) : char :=
  if (65 <=? c) && (c <=? 90) then c + 32 else c.
Definition ascii_capitalize (s : str) : str :=
  match s with
  | [] => []
  | c :: r => ascii_upper c :: map ascii_lower r
  end.

#[export] Instance ascii_Capitalize : Capitalize.
Proof.
  refine {| capitalize := ascii_capitalize |}.
  - reflexivity.
  - discriminate.
Defined.

(** The body of the loop of [firstnames_to_initials]:
    [firstname.capitalize()[0]] raises [IndexError] on an empty token. *)
Definition initials_step `{Capitalize} (acc : exc str) (firstname : str)
  : exc str :=
  initials <- acc ;;
  match capitalize firstname with
  | [] => Raise IndexError
  | c :: _ => Return (initials ++ [c] ++ lit ".")
  end.

(** [firstnames_to_initials] *)
Definition firstnames_to_initials `{Capitalize} (firstnames : str) : exc str :=
  initials <-
    fold_left initials_step (re_split_space firstnames) (Return []) ;;
  Return (strip initials).

Definition backslash : char := 92.
Definition tilde : char := 126.
Definition circumflex : char := 94.
Definition nl : char := 10.

(** A code point in the surrogate range, which UTF-8 does not encode. *)
Definition is_surrogate (c : char) : bool :=
  (0xD800 <=? c) && (c <=? 0xDFFF).

(** [fh.write(text)] on a file opened with [encoding='utf-8']: the text
    as written, or [UnicodeEncodeError] when it holds a surrogate. *)
Definition write (text : str) : exc str :=
  if existsb is_surrogate text then Raise UnicodeEncodeError
  else Return text.

(** The character class [[&%\$#_{}]]. *)
Definition is_reserved (c : char) : bool :=
  existsb (Z.eqb c) (lit "&%$#_{}").

(** [CHARS_TO_ESCAPE_PATTERN.sub('\\\\\g<char>', string)]: every reserved
    character whose predecessor in [string] is not a backslash is replaced by
    a backslash and itself.  [after_backslash] tells whether the character
    before the rest [s] is a backslash. *)
Fixpoint sub_chars_to_escape (after_backslash : bool) (s : str) : str :=
  match s with
  | [] => []
  | c :: r =>
      (if is_reserved c && negb after_backslash
       then [backslash; c] else [c])
      ++ sub_chars_to_escape (c =? backslash) r
  end.

(** The replacements of [SPECIAL_LATEX_CHARS], as [re.sub] expands them
    (a doubled backslash in the template stands for one backslash). *)
Definition SPECIAL_LATEX_CHARS : list (char * str) :=
  [ (tilde, lit "$\textasciitilde$");
    (circumflex, lit "$\textasciicircum$") ].

(** [re.sub(re.escape(special_char), repl, string)] *)
Definition re_sub_char (special_char : char) (repl : str) (s : str) : str :=
  flat_map (fun c => if c =? special_char then repl else [c]) s.

(** [latex_escape] *)
Definition latex_escape (string : str) : str :=
  let string := sub_chars_to_escape false string in
  fold_left (fun string item => re_sub_char (fst item) (snd item) string)
            SPECIAL_LATEX_CHARS string.

(** [re.sub('\s', '~', s)] *)
Definition re_sub_space_tilde (s : str) : str :=
  map (fun c => if is_space c then tilde else c) s.

(** [sep.join(l)] *)
Fixpoint join (sep : str) (l : list str) : str :=
  match l with
  | [] => []
  | [x] => x
  | x :: l' => x ++ sep ++ join sep l'
  end.

(** ** The input rows and the options *)

(** A row of [csv.DictReader] with its four cells present, each a string.
    A short row, whose missing cells [DictReader] fills with [None], is
    outside the model. *)
Record Row := mkRow {
  Firstnames : str;
  Lastname : str;
  Affiliation : str;
  ORCID : str
}.

(** The namespace returned by [parser.parse_args()], one field per [dest]. *)
Record Options := mkOptions {
  arxiv_output_file : str;
  arxiv_authors_prefix : str;
  authors : str;
  more_authors : bool;
  output_file : str;
  use_initials : bool;
  affiliation_letters : bool;
  affiliation_numbers : bool
}.

(** The namespace of an empty command line. *)
Definition default_options : Options :=
  mkOptions ARXIV_AUTHOR_FILE_DEFAULT ARXIV_AUTHORS_PREFIX_DEFAULT
            AUTHOR_FILE_DEFAULT false LATEX_AUTHOR_FILE_DEFAULT false
            AFFILIATION_USE_LETTERS (negb AFFILIATION_USE_LETTERS).

(** [<] on [str]: lexicographic on code points. *)
Fixpoint str_ltb (a b : str) : bool :=
  match a, b with
  | _, [] => false
  | [], _ :: _ => true
  | x :: a', y :: b' =>
      if x <? y then true else if y <? x then false else str_ltb a' b'
  end.

(** [sorted(rows, key=lambda x: x['Lastname'])]: the stable sort, as a stable
    insertion sort. *)
Fixpoint insert_row (x : Row) (l : list Row) : list Row :=
  match l with
  | [] => [x]
  | y :: l' =>
      if str_ltb (Lastname y) (Lastname x) then y :: insert_row x l'
      else x :: l
  end.

Definition sorted (rows : list Row) : list Row :=
  fold_right insert_row [] rows.

(** ** The body of [main] *)

(** The [name] built for a row (the [if options.use_initials] statement). *)
Definition display_name `{Capitalize} (options : Options) (author : Row)
  : exc str :=
  if use_initials options
  then initials <- firstnames_to_initials (Firstnames author) ;;
       Return (initials ++ lit " " ++ Lastname author)
  else Return (Firstnames author ++ lit " " ++ Lastname author).

(** One turn of the loop over the sorted rows; the state is
    [affiliation_list] and [author_list]. *)
Definition process_author `{Capitalize} (options : Options)
    (state : AffiliationList * list Author) (author : Row)
  : exc (AffiliationList * list Author) :=
  let (affiliation_list, author_list) := state in
  affiliation_id <- get_id affiliation_list (Affiliation author) ;;
  st <- match affiliation_id with
        | None =>
            let (affiliation_list', r) :=
              add affiliation_list (Affiliation author) in
            affiliation_id <- r ;; Return (affiliation_list', affiliation_id)
        | Some _ => Return (affiliation_list, affiliation_id)
        end ;;
  name <- display_name options author ;;
  Return (fst st,
          author_list ++ [Author_init name (snd st) (Some (ORCID author))]).

(** The loop over the rows, from the state [state]. *)
Definition authors_loop `{Capitalize} (options : Options) (rows : list Row)
    (state : exc (AffiliationList * list Author))
  : exc (AffiliationList * list Author) :=
  fold_left (fun acc author => st <- acc ;; process_author options st author)
            rows state.

(** The name and the affiliation of the dummy entry. *)
Definition MORE_NAME : str := lit "And many more to come...".
Definition MORE_AFFILIATION : str := lit "Many more to come...".

(** The optional dummy entry saying that more authors are expected. *)
Definition add_more_authors (options : Options)
    (st : AffiliationList * list Author)
  : exc (AffiliationList * list Author) :=
  if more_authors options then
    let (affiliation_list, author_list) := st in
    let (affiliation_list, r) := add affiliation_list MORE_AFFILIATION in
    _ <- r ;;
    affiliation_id <- get_id affiliation_list MORE_AFFILIATION ;;
    Return (affiliation_list,
            author_list ++ [Author_init MORE_NAME affiliation_id None])
  else Return st.

(** [author_list] and [affiliation_list] when the writing begins. *)
Definition build_lists `{Capitalize} (options : Options) (rows : list Row)
  : exc (AffiliationList * list Author) :=
  let author_list := [] in
  let affiliation_list :=
    AffiliationList_init (negb (affiliation_numbers options)) in
  st <- authors_loop options (sorted rows)
                     (Return (affiliation_list, author_list)) ;;
  add_more_authors options st.

(** [f'{x}'] for an affiliation ID. *)
Definition format_id (id : option index) : str :=
  match id with
  | None => lit "None"
  | Some (Letters s) => s
  | Some (Number n) => str_of_int n
  end.

(** [orcid_link] in the loop writing the authors. *)
Definition orcid_link (author : Author) : str :=
  match orcid author with
  | None => []
  | Some o => lit "\orcidlink{" ++ o ++ lit "}"
  end.

(** The line written for one author. *)
Definition author_line (author : Author) : str :=
  let orcid_link := orcid_link author in
  let name := re_sub_space_tilde (name author) in
  lit "\author[" ++ format_id (affiliation_id author) ++ lit "]{"
    ++ name ++ orcid_link ++ lit "}" ++ [nl].

(** The loop writing the authors, after the text [out]. *)
Definition author_lines (author_list : list Author) (out : exc str)
  : exc str :=
  fold_left (fun acc author =>
               out <- acc ;;
               line <- write (author_line author) ;;
               Return (out ++ line))
            author_list out.

(** The line written for one affiliation. *)
Definition affiliation_line (affiliation_list : AffiliationList)
    (affiliation : str) : exc str :=
  id <- get_id affiliation_list affiliation ;;
  write (lit "\affiliation[" ++ format_id id ++ lit "]{"
           ++ affiliation ++ lit "}" ++ [nl]).

(** The loop writing the affiliations, after the text [out]. *)
Definition affiliation_lines (affiliation_list : AffiliationList)
    (affiliations : list str) (out : exc str) : exc str :=
  fold_left (fun acc affiliation =>
               out <- acc ;;
               line <- affiliation_line affiliation_list affiliation ;;
               Return (out ++ line))
            affiliations out.

(** The text written to [options.output_file]. *)
Definition latex_text (affiliation_list : AffiliationList)
    (author_list : list Author) : exc str :=
  authors_part <- author_lines author_list (Return []) ;;
  blank <- write [nl] ;;
  affiliations_part <-
    affiliation_lines affiliation_list (_list affiliation_list) (Return []) ;;
  Return (authors_part ++ blank ++ affiliations_part).

(** The text written to [options.arxiv_output_file]; the [print] reads the
    constant, not [options.arxiv_authors_prefix]. *)
Definition arxiv_text (options : Options) (author_list : list Author) : str :=
  ARXIV_AUTHORS_PREFIX_DEFAULT
    ++ join (lit ", ") (map name author_list) ++ [nl].

Record Written := mkWritten {
  latex_file : str * str;
  arxiv_file : str * str
}.

(** [open(file, 'w', encoding='utf-8')]: whether a file opens for writing
    is for the environment to decide; a failure is an exception, in Python
    an [OSError]. *)
Class FileSystem := {
  open_w : str -> exc unit
}.

(** The environment in which every file opens for writing. *)
#[export] Instance writable_FileSystem : FileSystem :=
  {| open_w := fun _ => Return tt |}.

(** [main] after the options are parsed and the rows are read: the two
    files, each as its name and its text.  The LaTeX file is opened once the
    lists are built, the arXiv file once the LaTeX file is written. *)
Definition main_body `{Capitalize} `{FileSystem}
    (options : Options) (rows : list Row) : exc Written :=
  st <- build_lists options rows ;;
  let (affiliation_list, author_list) := st in
  _ <- open_w (output_file options) ;;
  latex <- latex_text affiliation_list author_list ;;
  _ <- open_w (arxiv_output_file options) ;;
  arxiv <- write (arxiv_text options author_list) ;;
  Return (mkWritten (output_file options, latex)
                    (arxiv_output_file options, arxiv)).

(** ** The script as a process *)

(** [SystemExit] derives from [BaseException], not from [Exception]. *)
Definition is_Exception (e : exception) : bool :=
  match e with
  | SystemExit _ => false
  | _ => true
  end.

(** [argparse] reports a command-line error through [parser.error], which
    ends in [sys.exit(2)]. *)
Definition argparse_error : exception := SystemExit 2.

(** [ArgumentParser] has no attribute [invalid_option_value]. *)
Definition invalid_option_value : exc unit := Raise AttributeError.

(** [main()]: [parse_args] is the outcome of [parser.parse_args()] and
    [read_csv] that of opening and reading the authors file.  The value is
    what [main] returns ([None] when it falls off its end) and what it
    wrote. *)
Definition main `{Capitalize} `{FileSystem} (parse_args : exc Options)
    (read_csv : str -> exc (list Row)) : exc (option Z * option Written) :=
  match parse_args with
  | Raise e =>
      if is_Exception e then
        _ <- invalid_option_value ;;
        Return (Some EXIT_STATUS_OPTION_ERROR, None)
      else Raise e
  | Return options =>
      rows <- read_csv (authors options) ;;
      w <- main_body options rows ;;
      Return (None, Some w)
  end.

(** The exit status of the interpreter running [if __name__ == '__main__':
    main()]: the value of [main()] is dropped, a [SystemExit] gives its code,
    any other uncaught exception gives 1. *)
Definition script_exit_status {A} (r : exc A) : Z :=
  match r with
  | Return _ => 0
  | Raise (SystemExit code) => code
  | Raise _ => 1
  end.

(** ** The specification's wording, for comparison *)

(** Letters map 0 to 'a' ... 25 to 'z'. *)
Definition letter (k : Z) : option char :=
  if (0 <=? k) && (k <=? 25) then Some (ord_a + k) else None.

(** The letter index as the specification words it: one letter up to
    position 25, then the letter for [(p div 26) - 1] and the letter for
    [p mod 26]. *)
Definition letter_index_spec (p : Z) : option str :=
  if p <=? 25 then
    match letter p with
    | Some l => Some [l]
    | None => None
    end
  else
    match letter (p / 26 - 1), letter (p mod 26) with
    | Some h, Some l => Some [h; l]
    | _, _ => None
    end.

(** Bijective base 26 of the one-based number [n], most significant letter
    first. *)
Fixpoint bijective26 (fuel : nat) (n : Z) (acc : str) : str :=
  match fuel with
  | O => acc
  | S fuel' =>
      if n <=? 0 then acc
      else bijective26 fuel' ((n - 1) / 26) ((ord_a + (n - 1) mod 26) :: acc)
  end.

(** The bijective base-26 name of the zero-based position [p]:
    a, ..., z, aa, ..., zz, aaa, ... *)
Definition bijective_base26 (p : Z) : str :=
  bijective26 (S (Z.to_nat p)) (p + 1) [].

(** [nameForDisplay] as the specification words it: every maximal run of
    whitespace becomes one '~'.  [in_run] tells whether the character before
    [s] is whitespace. *)
Fixpoint nameForDisplay_spec (in_run : bool) (s : str) : str :=
  match s with
  | [] => []
  | c :: r =>
      if is_space c
      then (if in_run then [] else [tilde]) ++ nameForDisplay_spec true r
      else c :: nameForDisplay_spec false r
  end.

(** The author line the specification describes: the name escaped for
    LaTeX before it is written. *)
Definition escaped_author_line (author : Author) : str :=
  lit "\author[" ++ format_id (affiliation_id author) ++ lit "]{"
    ++ re_sub_space_tilde (latex_escape (name author))
    ++ orcid_link author ++ lit "}" ++ [nl].

(** The arXiv line the specification describes: the configured prefix
    before the names. *)
Definition arxiv_text_spec (options : Options) (author_list : list Author)
  : str :=
  arxiv_authors_prefix options
    ++ join (lit ", ") (map name author_list) ++ [nl].

(** What links a row to the author built from it: the name is the one
    built for the row, the ORCID is the field of the row, the ID is made of
    digits or of characters from 'a' on. *)
Definition author_of_row `{Capitalize} (options : Options) (row : Row)
    (author : Author) : Prop :=
  exists nm id,
    display_name options row = Return nm
    /\ author = Author_init nm (Some id) (Some (ORCID row))
    /\ forall c, In c (format_id (Some id)) -> 48 <= c <= 57 \/ 97 <= c.


(** The order in which [sorted] leaves two neighbours: the second key is
    not below the first. *)
Definition lastname_le (x y : Row) : Prop :=
  str_ltb (Lastname y) (Lastname x) = false.

(** [pat] occurs in [s]. *)
Definition occurs (pat s : str) : Prop :=
  exists pre post, s = pre ++ pat ++ post.

(** No two whitespace characters of [s] are adjacent. *)
Fixpoint single_spaced (in_run : bool) (s : str) : bool :=
  match s with
  | [] => true
  | c :: r =>
      if is_space c then negb in_run && single_spaced true r
      else single_spaced false r
  end.

(** Every reserved character of [s] comes after a backslash. *)
Fixpoint all_escaped (after_backslash : bool) (s : str) : bool :=
  match s with
  | [] => true
  | c :: r =>
      (negb (is_reserved c) || after_backslash)
      && all_escaped (c =? backslash) r
  end.

(** [n] affiliations, all different: "0", "1", ... *)
Definition numbered_affiliations (n : nat) : list str :=
  map (fun k => str_of_int (Z.of_nat k)) (seq 0 n).

(** The input strings on which [re.split('\s', ...)] cuts an empty token:
    the empty string, a string that begins or ends with whitespace, a string
    with two adjacent whitespace characters. *)
Definition empty_token_input (s : str) : bool :=
  match s with
  | [] => true
  | c :: _ =>
      is_space c || is_space (last s 0) || negb (single_spaced false s)
  end.

(** What one turn of the loop of [firstnames_to_initials] appends for the
    token [firstname]: the first character of its capitalized form and a
    dot. *)
Definition initial_of `{Capitalize} (firstname : str) : str :=
  match capitalize firstname with
  | [] => []
  | c :: _ => [c] ++ lit "."
  end.

(** The strings of [xs] without repetition, each at its first occurrence. *)
Fixpoint distinct (xs : list str) : list str :=
  match xs with
  | [] => []
  | x :: xs' => x :: filter (fun y => negb (str_eqb x y)) (distinct xs')
  end.

(** The registry after one turn of the loop of [main] for the affiliation
    [a]: looked up, and appended when the look-up finds nothing. *)
Definition register (l : list str) (a : str) : list str :=
  if in_dec str_eq_dec a l then l else l ++ [a].

(** [y] is not among [l]. *)
Definition absent (l : list str) (y : str) : bool :=
  if in_dec str_eq_dec y l then false else true.

(** The ID given to an author is the one [get_id] has for the affiliation
    of the row. *)
Definition id_of_row (al : AffiliationList) (row : Row) (author : Author)
  : Prop :=
  get_id al (Affiliation row) = Return (affiliation_id author)
  /\ affiliation_id author <> None.

(** The line of the affiliation [a] with the ID [id]. *)
Definition affiliation_line_text (id : option index) (a : str) : str :=
  lit "\affiliation[" ++ format_id id ++ lit "]{" ++ a ++ lit "}" ++ [nl].

(** [s] holds no surrogate: [write] accepts it. *)
Definition encodable (s : str) : bool := negb (existsb is_surrogate s).

(** The four cells of [row] hold no surrogate, as the cells of a row read
    from a file decoded as UTF-8 do. *)
Definition row_encodable (row : Row) : bool :=
  encodable (Firstnames row) && encodable (Lastname row)
  && encodable (Affiliation row) && encodable (ORCID row).

(** The IDs of a registry that grows by [n] more entries hold no
    surrogate: always in number mode, and in letter mode up to
    26 * (0xD800 - 96) entries, the first letter of the later ones being a
    surrogate. *)
Definition id_room (al : AffiliationList) (n : nat) : Prop :=
  _index_letter al = false
  \/ Z.of_nat (length (_list al) + n) <= 1435200.

(** What [write] accepts of the state of the loop of [main]: the entries of
    the registry, and the line and the name of every author. *)
Definition good_state (al : AffiliationList) (authors : list Author)
  : Prop :=
  Forall (fun a => encodable a = true) (_list al)
  /\ Forall (fun author => encodable (author_line author) = true
                           /\ encodable (name author) = true) authors.

(** [chr] accepts the letter codes of a registry that grows by [n] more
    entries: always in number mode, where [chr] is not called, and in letter
    mode up to 26 * (0x110000 - 96) entries. *)
Definition room (al : AffiliationList) (n : nat) : Prop :=
  _index_letter al = false
  \/ Z.of_nat (length (_list al) + n) <= 28964416.

(** * Properties *)

(** ** The affiliation registry *)

Section Registry.

Implicit Types (self : AffiliationList) (a : str) (l : list str).

Lemma list_index_None l a : list_index a l = None <-> ~ In a l.
Proof.
  induction l as [|y l IH]; simpl.
  - tauto.
  - destruct (str_eq_dec y a) as [->|Hne].
    + split; [discriminate | intros H; exfalso; apply H; now left].
    + destruct (list_index a l) eqn:E.
      * split; [discriminate|]. intros H. exfalso. apply H. right.
        destruct (in_dec str_eq_dec a l) as [Hin|Hnin]; [exact Hin|].
        apply IH in Hnin. discriminate.
      * split; [|reflexivity]. intros _ [Heq|Hin]; [contradiction|].
        now apply IH.
Qed.

Lemma list_index_lt l a p : list_index a l = Some p -> (p < length l)%nat.
Proof.
  revert p. induction l as [|y l IH]; simpl; intros p; [discriminate|].
  destruct (str_eq_dec y a).
  - intros [= <-]. lia.
  - destruct (list_index a l); [|discriminate].
    intros [= <-]. specialize (IH n0 eq_refl). lia.
Qed.

Lemma list_index_app_old l l' a p :
  list_index a l = Some p -> list_index a (l ++ l') = Some p.
Proof.
  revert p. induction l as [|y l IH]; simpl; intros p; [discriminate|].
  destruct (str_eq_dec y a); [trivial|].
  destruct (list_index a l); [|discriminate].
  intros [= <-]. now rewrite (IH n0 eq_refl).
Qed.

Lemma list_index_app_new l a :
  ~ In a l -> list_index a (l ++ [a]) = Some (length l).
Proof.
  induction l as [|y l IH]; simpl; intros Hnin.
  - destruct (str_eq_dec a a); congruence.
  - destruct (str_eq_dec y a) as [->|_]; [exfalso; apply Hnin; now left|].
    rewrite IH; [reflexivity|]. intros Hin. apply Hnin. now right.
Qed.

Lemma adds_list self xs :
  _list (adds self xs) = _list self ++ xs
  /\ _index_letter (adds self xs) = _index_letter self.
Proof.
  revert self. induction xs as [|x xs IH]; intros self; simpl.
  - now rewrite app_nil_r.
  - destruct (IH (fst (add self x))) as [Hl Hb].
    unfold adds in *. simpl in *. rewrite Hl, Hb.
    now rewrite <- app_assoc.
Qed.

Lemma chr_ok i : 0 <= i < 0x110000 -> chr i = Return i.
Proof.
  intros Hi. unfold chr.
  replace (0 <=? i) with true by (symmetry; apply Z.leb_le; lia).
  replace (i <? 0x110000) with true by (symmetry; apply Z.ltb_lt; lia).
  reflexivity.
Qed.

(** [chr] accepts every code the letter formula builds from a position
    below 26 * (0x110000 - 96). *)
Lemma derive_id_returns index_letter p :
  0 <= p < 28964416 -> exists id, derive_id index_letter p = Return id.
Proof.
  intros Hp. unfold derive_id.
  destruct index_letter; [|eauto].
  assert (Hh : 0 <= p / 26 < 1114016).
  { split; [apply Z.div_pos; lia|apply Z.div_lt_upper_bound; lia]. }
  assert (Hm : 0 <= p mod 26 < 26) by (apply Z.mod_pos_bound; lia).
  cbv zeta. unfold ord_a.
  rewrite (chr_ok (97 + p mod 26)) by lia.
  destruct (0 <? p / 26) eqn:E.
  - apply Z.ltb_lt in E. rewrite chr_ok by lia. cbn [bind]. eauto.
  - cbn [bind]. eauto.
Qed.

Lemma get_id_absent self a :
  get_id self a = Return None <-> ~ In a (_list self).
Proof.
  rewrite <- list_index_None. unfold get_id.
  destruct (list_index a (_list self)) as [p|]; [|tauto].
  split; [|discriminate].
  destruct (derive_id _ _); discriminate.
Qed.

Lemma str_eqb_eq (s t : str) : str_eqb s t = true -> s = t.
Proof. unfold str_eqb. destruct (str_eq_dec s t); [trivial|discriminate]. Qed.

(** Below position 702 the letter formula of the code, the formula of the
    specification and bijective base 26 agree; checked position by
    position. *)
Lemma letter_index_below_702 (p : nat) :
  (p <= 701)%nat ->
  derive_id true (Z.of_nat p) = Return (Letters (bijective_base26 (Z.of_nat p)))
  /\ letter_index_spec (Z.of_nat p) = Some (bijective_base26 (Z.of_nat p)).
Proof.
  intros Hp.
  assert (Hall :
    forallb (fun p =>
      match derive_id true (Z.of_nat p), letter_index_spec (Z.of_nat p) with
      | Return (Letters s), Some s' =>
          str_eqb s (bijective_base26 (Z.of_nat p))
          && str_eqb s' (bijective_base26 (Z.of_nat p))
      | _, _ => false
      end) (seq 0 702) = true) by (vm_compute; reflexivity).
  rewrite forallb_forall in Hall.
  specialize (Hall p). rewrite in_seq in Hall.
  specialize (Hall ltac:(lia)).
  destruct (derive_id true (Z.of_nat p)) as [[s|n]|e]; try discriminate.
  destruct (letter_index_spec (Z.of_nat p)) as [s'|]; try discriminate.
  apply andb_true_iff in Hall. destruct Hall as [H1 H2].
  apply str_eqb_eq in H1, H2. now subst.
Qed.

End Registry.

(** C1 (as amended): in letter mode, the index of the affiliation whose
    first occurrence is at zero-based position [p <= 701] is the bijective
    base-26 name of [p]: one letter (0 -> 'a' ... 25 -> 'z') for [p <= 25],
    and for [26 <= p <= 701] the letter for [(p div 26) - 1] followed by the
    letter for [p mod 26].  Positions 0, 1, 25, 26, 27, 51, 52 give a, b, z,
    aa, ab, az, ba. *)
Theorem get_id_letter_index (self : AffiliationList) (a : str) (p : nat) :
  _index_letter self = true ->
  list_index a (_list self) = Some p ->
  (p <= 701)%nat ->
  get_id self a = Return (Some (Letters (bijective_base26 (Z.of_nat p))))
  /\ letter_index_spec (Z.of_nat p) = Some (bijective_base26 (Z.of_nat p))
  /\ map bijective_base26 [0; 1; 25; 26; 27; 51; 52]
     = map lit ["a"; "b"; "z"; "aa"; "ab"; "az"; "ba"]%string.
Proof.
  intros Hletter Hidx Hp.
  destruct (letter_index_below_702 p Hp) as [Hcode Hspec].
  unfold get_id. rewrite Hidx, Hletter, Hcode.
  split; [reflexivity|].
  split; [exact Hspec | vm_compute; reflexivity].
Qed.

Lemma get_id_letter_index_witness :
  get_id (mkAffiliationList (numbered_affiliations 53) true) (lit "52")
  = Return (Some (Letters (lit "ba"))).
Proof.
  apply (get_id_letter_index
           (mkAffiliationList (numbered_affiliations 53) true)
           (lit "52") 52%nat).
  - reflexivity.
  - vm_compute. reflexivity.
  - lia.
Defined.

(** C1 (as stated) fails at position 702: the code puts [chr(ord('a') + 26)],
    the character '{', in front, where no letter exists for 26 and bijective
    base 26 continues with "aaa". *)
Lemma get_id_letter_position_702 :
  let self := mkAffiliationList (numbered_affiliations 703) true in
  _index_letter self = true
  /\ list_index (lit "702") (_list self) = Some 702%nat
  /\ get_id self (lit "702") = Return (Some (Letters (lit "{a")))
  /\ letter_index_spec 702 = None
  /\ bijective_base26 702 = lit "aaa".
Proof. vm_compute. repeat split; reflexivity. Qed.

(** C2: [get_id(a)] returns [None] exactly when [a] was never passed to
    [add]; once [a] has been added, [get_id(a)] has the same outcome after
    any further calls of [add], and that outcome is an index as long as the
    registry holds at most 26 * (0x110000 - 96) entries. *)
Theorem get_id_absent_iff_never_added
    (index_letter : bool) (added : list str) (a : str) :
  let self := adds (AffiliationList_init index_letter) added in
  (get_id self a = Return None <-> ~ In a added)
  /\ (In a added ->
      forall later, get_id (adds self later) a = get_id self a)
  /\ (In a added -> Z.of_nat (length added) <= 28964416 ->
      exists id, get_id self a = Return (Some id)).
Proof.
  intros self.
  destruct (adds_list (AffiliationList_init index_letter) added) as [Hl Hb].
  fold self in Hl, Hb. simpl in Hl, Hb.
  split; [|split].
  - rewrite get_id_absent, Hl. tauto.
  - intros Hin later.
    destruct (adds_list self later) as [Hl' Hb'].
    destruct (list_index a added) as [p|] eqn:E.
    + unfold get_id. rewrite Hl', Hb', Hl.
      now rewrite (list_index_app_old _ later _ _ E), E.
    + apply list_index_None in E. contradiction.
  - intros Hin Hlen.
    destruct (list_index a added) as [p|] eqn:E.
    + unfold get_id. rewrite Hl, E.
      pose proof (list_index_lt _ _ _ E) as Hlt.
      destruct (derive_id_returns (_index_letter self) (Z.of_nat p))
        as [id Hid]; [lia|].
      rewrite Hid. simpl. eauto.
    + apply list_index_None in E. contradiction.
Qed.

Lemma get_id_absent_iff_never_added_witness :
  let self := adds (AffiliationList_init true) [lit "CERN"; lit "LAL"] in
  get_id (adds self [lit "DESY"; lit "KEK"]) (lit "LAL") = get_id self (lit "LAL")
  /\ exists id, get_id self (lit "LAL") = Return (Some id).
Proof.
  intros self.
  assert (Hin : In (lit "LAL") [lit "CERN"; lit "LAL"])
    by (right; left; reflexivity).
  destruct (get_id_absent_iff_never_added true [lit "CERN"; lit "LAL"]
              (lit "LAL")) as [_ [Hsame Hid]].
  split.
  - apply (Hsame Hin).
  - apply (Hid Hin). simpl. lia.
Defined.

(** C3 (as amended): [add(a)] appends [a] as the last entry, with no check
    for an equal entry, and returns [get_id(a)] on the list so extended: the
    index derived from the position of the first entry equal to [a].  That
    position is the one of the entry just appended exactly when [a] was not
    in the registry before. *)
Theorem add_appends_and_returns_get_id (self : AffiliationList) (a : str) :
  _list (fst (add self a)) = _list self ++ [a]
  /\ _index_letter (fst (add self a)) = _index_letter self
  /\ snd (add self a) = get_id (fst (add self a)) a
  /\ (forall p, list_index a (_list self) = Some p ->
      snd (add self a)
      = id <- derive_id (_index_letter self) (Z.of_nat p) ;; Return (Some id))
  /\ (~ In a (_list self) ->
      snd (add self a)
      = id <- derive_id (_index_letter self)
                        (Z.of_nat (length (_list self))) ;;
        Return (Some id)).
Proof.
  repeat split.
  - intros p Hp. simpl. unfold get_id. simpl.
    now rewrite (list_index_app_old _ [a] _ _ Hp).
  - intros Hnin. simpl. unfold get_id. simpl.
    now rewrite (list_index_app_new _ _ Hnin).
Qed.

Lemma add_appends_and_returns_get_id_witness :
  snd (add (mkAffiliationList [lit "CERN"] true) (lit "LAL"))
  = Return (Some (Letters (lit "b")))
  /\ snd (add (mkAffiliationList [lit "CERN"; lit "LAL"] true) (lit "CERN"))
     = Return (Some (Letters (lit "a"))).
Proof.
  split.
  - destruct (add_appends_and_returns_get_id
                (mkAffiliationList [lit "CERN"] true) (lit "LAL"))
      as (_ & _ & _ & _ & Hnew).
    rewrite Hnew; [reflexivity|].
    simpl. intros [H|[]]. discriminate H.
  - destruct (add_appends_and_returns_get_id
                (mkAffiliationList [lit "CERN"; lit "LAL"] true) (lit "CERN"))
      as (_ & _ & _ & Hold & _).
    rewrite (Hold 0%nat); reflexivity.
Defined.

(** C3 (as stated) fails when [a] is already registered: the entry appended
    by [add] is at position 1, whose index is "b", and [add] returns "a", the
    index of the first entry equal to [a]. *)
Lemma add_duplicate_returns_first_index :
  let self := mkAffiliationList [lit "CERN"] true in
  _list (fst (add self (lit "CERN"))) = [lit "CERN"; lit "CERN"]
  /\ snd (add self (lit "CERN")) = Return (Some (Letters (lit "a")))
  /\ derive_id true (Z.of_nat (length (_list self)))
     = Return (Letters (lit "b")).
Proof. vm_compute. repeat split; reflexivity. Qed.

(** ** Initials *)

Section Initials.

Context `{Capitalize}.

Lemma initials_loop_raised tokens e : fold_left initials_step tokens (Raise e) = Raise e.
Proof. induction tokens; simpl; auto. Qed.

Lemma initials_loop_empty_token tokens initials :
  In [] tokens -> fold_left initials_step tokens (Return initials) = Raise IndexError.
Proof.
  revert initials. induction tokens as [|t tokens IH]; intros initials Hin.
  - destruct Hin.
  - simpl. destruct t as [|c r].
    + rewrite capitalize_nil. apply initials_loop_raised.
    + destruct Hin as [Hin|Hin]; [discriminate|].
      pose proof (capitalize_cons c r) as Hne.
      destruct (capitalize (c :: r)); [contradiction|]. now apply IH.
Qed.

Lemma initials_loop_returns tokens initials :
  ~ In [] tokens -> exists r, fold_left initials_step tokens (Return initials) = Return r.
Proof.
  revert initials. induction tokens as [|t tokens IH]; intros initials Hnin.
  - simpl. eauto.
  - simpl. destruct t as [|c r]; [exfalso; apply Hnin; now left|].
    pose proof (capitalize_cons c r) as Hne.
    destruct (capitalize (c :: r)); [contradiction|].
    apply IH. intros Hin. apply Hnin. now right.
Qed.

(** [firstnames_to_initials] raises [IndexError] exactly when one of the
    tokens cut by [re.split] is empty, and returns otherwise. *)
Lemma firstnames_to_initials_outcome firstnames :
  (In [] (re_split_space firstnames) ->
   firstnames_to_initials firstnames = Raise IndexError)
  /\ (~ In [] (re_split_space firstnames) ->
      exists r, firstnames_to_initials firstnames = Return r).
Proof.
  change (firstnames_to_initials firstnames)
    with (initials <- fold_left initials_step (re_split_space firstnames) (Return []) ;;
          Return (strip initials)).
  split; intros Hin.
  - now rewrite initials_loop_empty_token.
  - edestruct initials_loop_returns as [r Hr]; [exact Hin|].
    rewrite Hr. simpl. eauto.
Qed.

End Initials.

Example firstnames_to_initials_jean_paul :
  firstnames_to_initials (lit "jean paul") = Return (lit "J.P.").
Proof. reflexivity. Qed.

(** C4: on the empty string, on a whitespace-only string and on
    "  mary  " the code raises [IndexError] instead of returning: the first
    token cut by [re.split('\s', ...)] is empty and [''.capitalize()[0]] is
    out of range. *)
Theorem firstnames_to_initials_empty_token_raises (C : Capitalize) :
  firstnames_to_initials (lit "") = Raise IndexError
  /\ firstnames_to_initials (lit "   ") = Raise IndexError
  /\ firstnames_to_initials (lit "  mary  ") = Raise IndexError.
Proof.
  repeat split; apply firstnames_to_initials_outcome;
    vm_compute; left; reflexivity.
Qed.

(** ** Escaping for LaTeX *)

Section Escape.

Implicit Types (s : str) (c : char) (b : bool).

Lemma re_sub_char_absent ch repl s :
  ~ In ch s -> re_sub_char ch repl s = s.
Proof.
  unfold re_sub_char. induction s as [|c s IH]; simpl; intros Hnin; [trivial|].
  destruct (Z.eqb_spec c ch) as [->|_]; [exfalso; apply Hnin; now left|].
  simpl. f_equal. apply IH. intros Hin. apply Hnin. now right.
Qed.

Lemma sub_chars_to_escape_In b s c :
  In c (sub_chars_to_escape b s) -> c = backslash \/ In c s.
Proof.
  revert b. induction s as [|x s IH]; simpl; intros b; [tauto|].
  rewrite in_app_iff. intros [Hin|Hin].
  - destruct (is_reserved x && negb b); simpl in Hin; intuition.
  - apply IH in Hin. tauto.
Qed.

Lemma sub_chars_to_escape_all_escaped b s :
  all_escaped b (sub_chars_to_escape b s) = true.
Proof.
  revert b. induction s as [|x s IH]; simpl; intros b; [trivial|].
  destruct (is_reserved x) eqn:Hx, b; simpl; rewrite ?Hx; simpl; apply IH.
Qed.

Lemma sub_chars_to_escape_fixed b s :
  all_escaped b s = true -> sub_chars_to_escape b s = s.
Proof.
  revert b. induction s as [|x s IH]; simpl; intros b Hs; [trivial|].
  apply andb_true_iff in Hs. destruct Hs as [Hx Hs].
  rewrite (IH _ Hs).
  destruct (is_reserved x), b; simpl in *; congruence.
Qed.

Lemma all_escaped_preceded b s pre c post :
  all_escaped b s = true -> s = pre ++ c :: post -> is_reserved c = true ->
  (pre = [] /\ b = true) \/ exists pre', pre = pre' ++ [backslash].
Proof.
  revert b s. induction pre as [|x pre IH]; intros b s Hs -> Hc; simpl in Hs.
  - left. rewrite Hc in Hs. simpl in Hs.
    apply andb_true_iff in Hs. tauto.
  - right. apply andb_true_iff in Hs. destruct Hs as [_ Hs].
    destruct (IH _ _ Hs eq_refl Hc) as [[-> Hb]|[pre' ->]].
    + exists []. simpl. f_equal. now apply Z.eqb_eq.
    + now exists (x :: pre').
Qed.

Lemma latex_escape_no_special s :
  ~ In tilde s -> ~ In circumflex s ->
  latex_escape s = sub_chars_to_escape false s.
Proof.
  intros Ht Hc. unfold latex_escape, SPECIAL_LATEX_CHARS. simpl.
  rewrite (re_sub_char_absent tilde).
  - apply re_sub_char_absent.
    intros Hin. apply sub_chars_to_escape_In in Hin.
    destruct Hin; [discriminate|contradiction].
  - intros Hin. apply sub_chars_to_escape_In in Hin.
    destruct Hin; [discriminate|contradiction].
Qed.

End Escape.

Example latex_escape_reserved :
  latex_escape (lit "50% & #1_{x}") = lit "50\% \& \#1\_\{x\}".
Proof. reflexivity. Qed.

(** C5: on a string with no '~' and no '^', [latex_escape] applied twice
    gives what it gives applied once: in the result of the first pass every
    one of & % $ # _ { } comes right after a backslash, so the second pass
    changes nothing. *)
Theorem latex_escape_idempotent (s : str) :
  ~ In tilde s -> ~ In circumflex s ->
  latex_escape (latex_escape s) = latex_escape s
  /\ (forall pre c post,
        latex_escape s = pre ++ c :: post -> is_reserved c = true ->
        exists pre', pre = pre' ++ [backslash]).
Proof.
  intros Ht Hc.
  rewrite (latex_escape_no_special s Ht Hc).
  pose proof (sub_chars_to_escape_all_escaped false s) as Hesc.
  split.
  - rewrite latex_escape_no_special.
    + now apply sub_chars_to_escape_fixed.
    + intros Hin. apply sub_chars_to_escape_In in Hin.
      destruct Hin; [discriminate|contradiction].
    + intros Hin. apply sub_chars_to_escape_In in Hin.
      destruct Hin; [discriminate|contradiction].
  - intros pre c post Heq Hres.
    destruct (all_escaped_preceded _ _ _ _ _ Hesc Heq Hres)
      as [[_ Hb]|Hpre]; [discriminate|exact Hpre].
Qed.

Lemma latex_escape_idempotent_witness :
  latex_escape (latex_escape (lit "50% & #1_{x} R\&D"))
  = latex_escape (lit "50% & #1_{x} R\&D").
Proof.
  apply (latex_escape_idempotent (lit "50% & #1_{x} R\&D")).
  - vm_compute. intuition discriminate.
  - vm_compute. intuition discriminate.
Defined.

(** ** Names in the author lines *)

Lemma re_sub_space_tilde_run (run : str) :
  forallb is_space run = true ->
  re_sub_space_tilde run = repeat tilde (length run).
Proof.
  induction run as [|c run IH]; simpl; [trivial|].
  intros Hrun. apply andb_true_iff in Hrun. destruct Hrun as [Hc Hrun].
  rewrite Hc. f_equal. now apply IH.
Qed.

Lemma re_sub_space_tilde_single_spaced (in_run : bool) (s : str) :
  single_spaced in_run s = true ->
  re_sub_space_tilde s = nameForDisplay_spec in_run s.
Proof.
  revert in_run. induction s as [|c s IH]; simpl; intros in_run Hs; [trivial|].
  destruct (is_space c).
  - apply andb_true_iff in Hs. destruct Hs as [Hrun Hs].
    destruct in_run; [discriminate|]. simpl. f_equal. now apply IH.
  - f_equal. now apply IH.
Qed.

(** C6 (as amended): the name in an author line is the display name with
    every single whitespace character replaced by one '~', the other
    characters and the length unchanged: a run of n whitespace characters
    gives n '~', and where no two whitespace characters are adjacent the
    result is the one of replacing every whitespace run by one '~'. *)
Theorem author_line_tilde_per_whitespace (author : Author) :
  author_line author
  = lit "\author[" ++ format_id (affiliation_id author) ++ lit "]{"
      ++ re_sub_space_tilde (name author) ++ orcid_link author
      ++ lit "}" ++ [nl]
  /\ length (re_sub_space_tilde (name author)) = length (name author)
  /\ (forall pre run post,
        name author = pre ++ run ++ post -> forallb is_space run = true ->
        re_sub_space_tilde (name author)
        = re_sub_space_tilde pre ++ repeat tilde (length run)
            ++ re_sub_space_tilde post)
  /\ (single_spaced false (name author) = true ->
      re_sub_space_tilde (name author)
      = nameForDisplay_spec false (name author)).
Proof.
  split; [reflexivity|]. split; [apply length_map|]. split.
  - intros pre run post -> Hrun. unfold re_sub_space_tilde at 1.
    rewrite !map_app. fold (re_sub_space_tilde run).
    now rewrite (re_sub_space_tilde_run run Hrun).
  - apply re_sub_space_tilde_single_spaced.
Qed.

Lemma author_line_tilde_per_whitespace_witness :
  let author := Author_init (lit "Jane   Doe") (Some (Letters (lit "a"))) None in
  re_sub_space_tilde (name author) = lit "Jane~~~Doe"
  /\ re_sub_space_tilde (lit "Jane Doe") = nameForDisplay_spec false (lit "Jane Doe").
Proof.
  intros author. split.
  - destruct (author_line_tilde_per_whitespace author) as (_ & _ & Hrun & _).
    apply (Hrun (lit "Jane") (lit "   ") (lit "Doe")); reflexivity.
  - destruct (author_line_tilde_per_whitespace
                (Author_init (lit "Jane Doe") None None)) as (_ & _ & _ & Hone).
    apply Hone. reflexivity.
Defined.

(** C6 (as stated) fails on a run of two spaces: the line carries two '~',
    where replacing the run would give one. *)
Lemma author_line_two_spaces :
  let author := Author_init (lit "Jane  Doe") (Some (Letters (lit "a"))) None in
  author_line author = lit "\author[a]{Jane~~Doe}" ++ [nl]
  /\ nameForDisplay_spec false (name author) = lit "Jane~Doe"
  /\ re_sub_space_tilde (name author) <> nameForDisplay_spec false (name author).
Proof. vm_compute. repeat split; discriminate. Qed.

(** ** The lists built by [main] *)

(** The characters of an affiliation ID written in a line: 'a' and above
    for a letter ID, digits for a number ID; never a backslash. *)
Lemma string_of_uint_digits (d : Decimal.uint) (a : ascii) :
  In a (list_ascii_of_string (NilEmpty.string_of_uint d)) ->
  48 <= Z.of_N (N_of_ascii a) <= 57.
Proof.
  induction d; simpl; try tauto;
    (intros [<-|Hin]; [vm_compute; split; discriminate | now apply IHd]).
Qed.

Lemma str_of_int_chars (n c : Z) :
  0 <= n -> In c (str_of_int n) -> 48 <= c <= 57.
Proof.
  intros Hn. unfold str_of_int, lit. rewrite in_map_iff.
  intros (a & <- & Hin).
  unfold NilZero.string_of_int in Hin.
  destruct (Z.to_int n) as [d|d] eqn:E.
  - unfold NilZero.string_of_uint in Hin.
    destruct d; try (now apply (string_of_uint_digits _ _ Hin)).
    simpl in Hin. destruct Hin as [<-|[]]. vm_compute. split; discriminate.
  - exfalso. destruct n as [|q|q]; unfold Z.to_int in E;
      [discriminate E | discriminate E | now apply Hn].
Qed.

Lemma chr_value (i c : Z) : chr i = Return c -> c = i.
Proof. unfold chr. destruct (_ && _); congruence. Qed.

Lemma derive_id_chars (index_letter : bool) (p : Z) (id : index) (c : char) :
  0 <= p -> derive_id index_letter p = Return id ->
  In c (format_id (Some id)) -> 48 <= c <= 57 \/ 97 <= c.
Proof.
  intros Hp. unfold derive_id. destruct index_letter.
  - cbv zeta. unfold ord_a.
    assert (Hm : 0 <= p mod 26 < 26) by (apply Z.mod_pos_bound; lia).
    destruct (0 <? p / 26) eqn:E.
    + apply Z.ltb_lt in E.
      destruct (chr (97 + p / 26 - 1)) as [h|] eqn:Eh; [|discriminate].
      destruct (chr (97 + p mod 26)) as [l|] eqn:El; [|discriminate].
      apply chr_value in Eh, El. simpl. intros [= <-]. simpl.
      intros [<-|[<-|[]]]; lia.
    + destruct (chr (97 + p mod 26)) as [l|] eqn:El; [|discriminate].
      apply chr_value in El. simpl. intros [= <-]. simpl.
      intros [<-|[]]; lia.
  - intros [= <-]. simpl. intros Hin.
    apply str_of_int_chars in Hin; [left; exact Hin | lia].
Qed.

Lemma get_id_chars (self : AffiliationList) (a : str) (id : index) (c : char) :
  get_id self a = Return (Some id) -> In c (format_id (Some id)) ->
  48 <= c <= 57 \/ 97 <= c.
Proof.
  unfold get_id. destruct (list_index a (_list self)) as [p|]; [|discriminate].
  destruct (derive_id _ _) as [id'|] eqn:E; [|discriminate].
  simpl. intros [= <-]. apply (derive_id_chars _ _ _ _ (Nat2Z.is_nonneg p) E).
Qed.

Lemma get_id_present (self : AffiliationList) (a : str) (r : option index) :
  In a (_list self) -> get_id self a = Return r -> exists id, r = Some id.
Proof.
  intros Hin. unfold get_id.
  destruct (list_index a (_list self)) as [p|] eqn:E.
  - destruct (derive_id _ _); [|discriminate]. simpl. intros [= <-]. eauto.
  - apply list_index_None in E. contradiction.
Qed.

Lemma get_id_returns (self : AffiliationList) (a : str) :
  Z.of_nat (length (_list self)) <= 28964416 ->
  exists r, get_id self a = Return r.
Proof.
  intros Hlen. unfold get_id.
  destruct (list_index a (_list self)) as [p|] eqn:E; [|eauto].
  apply list_index_lt in E.
  destruct (derive_id_returns (_index_letter self) (Z.of_nat p)) as [id ->];
    [lia|]. simpl. eauto.
Qed.

(** *** Writing *)

Lemma write_value (text written : str) :
  write text = Return written -> written = text.
Proof. unfold write. destruct (existsb _ _); congruence. Qed.


Lemma write_encodable (text : str) :
  encodable text = true -> write text = Return text.
Proof.
  unfold encodable, write. now destruct (existsb is_surrogate text).
Qed.

Lemma author_lines_raised (authors : list Author) (e : exception) :
  author_lines authors (Raise e) = Raise e.
Proof. unfold author_lines. induction authors; simpl; auto. Qed.

Lemma author_lines_value (authors : list Author) (out part : str) :
  author_lines authors (Return out) = Return part ->
  part = out ++ concat (map author_line authors).
Proof.
  revert out. induction authors as [|a authors IH]; intros out.
  - intros [= <-]. simpl. now rewrite app_nil_r.
  - change (author_lines (a :: authors) (Return out))
      with (author_lines authors
              (line <- write (author_line a) ;; Return (out ++ line))).
    destruct (write (author_line a)) as [line|] eqn:W; cbn [bind];
      [|now rewrite author_lines_raised].
    apply write_value in W. subst line.
    intros Hrest. apply IH in Hrest. subst part.
    cbn [map concat]. now rewrite <- app_assoc.
Qed.

Section Main.

Context `{Capitalize} `{FileSystem} (options : Options).

Lemma process_author_appends al authors row al' authors' :
  process_author options (al, authors) row = Return (al', authors') ->
  exists author, author_of_row options row author
                 /\ authors' = authors ++ [author].
Proof.
  unfold process_author.
  destruct (get_id al (Affiliation row)) as [[id|]|e] eqn:G; cbn [bind].
  - destruct (display_name options row) as [nm|] eqn:D; [|discriminate].
    cbn [bind fst snd]. intros [= <- <-].
    exists (Author_init nm (Some id) (Some (ORCID row))). split; [|reflexivity].
    exists nm, id. repeat split; trivial.
    intros c. apply (get_id_chars _ _ _ _ G).
  - unfold add. cbv beta zeta iota.
    set (al2 := mkAffiliationList (_list al ++ [Affiliation row]) _).
    destruct (get_id al2 (Affiliation row)) as [r|] eqn:G2; [|discriminate].
    assert (Hin : In (Affiliation row) (_list al2))
      by (simpl; apply in_or_app; right; now left).
    destruct (get_id_present _ _ _ Hin G2) as [id ->].
    cbn [bind].
    destruct (display_name options row) as [nm|] eqn:D; [|discriminate].
    cbn [bind fst snd]. intros [= <- <-].
    exists (Author_init nm (Some id) (Some (ORCID row))). split; [|reflexivity].
    exists nm, id. repeat split; trivial.
    intros c. apply (get_id_chars _ _ _ _ G2).
  - discriminate.
Qed.

Lemma authors_loop_raised rows e :
  authors_loop options rows (Raise e) = Raise e.
Proof. unfold authors_loop. induction rows; simpl; auto. Qed.

Lemma authors_loop_appends rows al authors al' authors' :
  authors_loop options rows (Return (al, authors)) = Return (al', authors') ->
  exists new, authors' = authors ++ new
              /\ Forall2 (author_of_row options) rows new.
Proof.
  revert al authors. induction rows as [|row rows IH]; intros al authors.
  - intros [= <- <-]. exists []. now rewrite app_nil_r.
  - change (authors_loop options (row :: rows) (Return (al, authors)))
      with (authors_loop options rows (process_author options (al, authors) row)).
    destruct (process_author options (al, authors) row) as [[al1 authors1]|e] eqn:P.
    + intros Hloop. apply IH in Hloop. destruct Hloop as (new & -> & Hnew).
      apply process_author_appends in P. destruct P as (author & Hrow & ->).
      exists (author :: new). rewrite <- app_assoc. split; [reflexivity|].
      now constructor.
    + rewrite authors_loop_raised. discriminate.
Qed.

Lemma add_more_authors_appends al authors al' authors' :
  add_more_authors options (al, authors) = Return (al', authors') ->
  exists extra,
    authors' = authors ++ extra
    /\ ((more_authors options = false /\ extra = [])
        \/ (more_authors options = true
            /\ exists id, extra = [Author_init MORE_NAME id None])).
Proof.
  unfold add_more_authors. destruct (more_authors options).
  - unfold add. cbv beta zeta iota.
    destruct (get_id _ MORE_AFFILIATION) as [id|]; [|discriminate].
    cbn [bind]. intros [= <- <-]. exists [Author_init MORE_NAME id None].
    split; [reflexivity|]. right. eauto.
  - intros [= <- <-]. exists []. rewrite app_nil_r. auto.
Qed.

(** The authors when the writing begins: one per row, in the order of the
    sorted rows, then the dummy entry if asked for. *)
Lemma build_lists_authors rows al authors :
  build_lists options rows = Return (al, authors) ->
  exists real extra,
    authors = real ++ extra
    /\ Forall2 (author_of_row options) (sorted rows) real
    /\ ((more_authors options = false /\ extra = [])
        \/ (more_authors options = true
            /\ exists id, extra = [Author_init MORE_NAME id None])).
Proof.
  unfold build_lists. cbv zeta.
  destruct (authors_loop _ _ _) as [[al1 authors1]|] eqn:L; [|discriminate].
  cbn [bind]. intros M.
  apply authors_loop_appends in L. destruct L as (real & -> & Hreal).
  apply add_more_authors_appends in M. destruct M as (extra & -> & Hextra).
  exists real, extra. auto.
Qed.

Lemma main_body_writes rows w :
  main_body options rows = Return w ->
  exists al authors affiliations_part,
    build_lists options rows = Return (al, authors)
    /\ latex_file w
       = (output_file options,
          concat (map author_line authors) ++ [nl] ++ affiliations_part)
    /\ arxiv_file w
       = (arxiv_output_file options,
          ARXIV_AUTHORS_PREFIX_DEFAULT
            ++ join (lit ", ") (map name authors) ++ [nl]).
Proof.
  unfold main_body.
  destruct (build_lists options rows) as [[al authors]|]; [|discriminate].
  cbn [bind].
  destruct (open_w (output_file options)); [|discriminate].
  cbn [bind]. unfold latex_text.
  destruct (author_lines authors (Return [])) as [ap|] eqn:A; [|discriminate].
  apply author_lines_value in A. subst ap.
  change (write [nl]) with (@Return str [nl]). cbn [bind].
  destruct (affiliation_lines _ _ _) as [part|]; [|discriminate].
  cbn [bind].
  destruct (open_w (arxiv_output_file options)); [|discriminate].
  cbn [bind].
  destruct (write (arxiv_text options authors)) as [ax|] eqn:W; [|discriminate].
  apply write_value in W. subst ax.
  cbn [bind]. intros [= <-]. exists al, authors, part. auto.
Qed.

(** *** When [main] runs to its end *)

Lemma display_name_returns row :
  (use_initials options = true -> ~ In [] (re_split_space (Firstnames row))) ->
  exists nm, display_name options row = Return nm.
Proof.
  unfold display_name. destruct (use_initials options); [|eauto].
  intros Htok.
  destruct (firstnames_to_initials_outcome (Firstnames row)) as [_ Hret].
  destruct (Hret (Htok eq_refl)) as [r ->]. cbn [bind]. eauto.
Qed.

Lemma process_author_returns al authors row :
  (exists nm, display_name options row = Return nm) ->
  Z.of_nat (length (_list al)) < 28964416 ->
  exists al' authors',
    process_author options (al, authors) row = Return (al', authors')
    /\ (length (_list al') <= S (length (_list al)))%nat.
Proof.
  intros [nm D] Hlen. unfold process_author.
  destruct (get_id_returns al (Affiliation row)) as [r G]; [lia|].
  rewrite G. cbn [bind]. destruct r as [id|].
  - rewrite D. cbn [bind fst snd]. eexists _, _. split; [reflexivity|]. lia.
  - unfold add. cbv beta zeta iota.
    set (al2 := mkAffiliationList (_list al ++ [Affiliation row]) _).
    assert (Hlen2 : length (_list al2) = S (length (_list al)))
      by (simpl; rewrite length_app; simpl; lia).
    destruct (get_id_returns al2 (Affiliation row)) as [r2 G2]; [lia|].
    rewrite G2. cbn [bind]. rewrite D. cbn [bind fst snd].
    eexists _, _. split; [reflexivity|]. lia.
Qed.

Lemma authors_loop_returns rows al authors :
  (forall row, In row rows -> exists nm, display_name options row = Return nm) ->
  Z.of_nat (length (_list al) + length rows) <= 28964416 ->
  exists al' authors',
    authors_loop options rows (Return (al, authors)) = Return (al', authors')
    /\ (length (_list al') <= length (_list al) + length rows)%nat.
Proof.
  revert al authors. induction rows as [|row rows IH]; intros al authors Hnm Hlen.
  - exists al, authors. split; [reflexivity|]. lia.
  - change (authors_loop options (row :: rows) (Return (al, authors)))
      with (authors_loop options rows (process_author options (al, authors) row)).
    simpl in Hlen.
    destruct (process_author_returns al authors row) as (al1 & authors1 & -> & Hl1).
    + apply Hnm. now left.
    + lia.
    + destruct (IH al1 authors1) as (al' & authors' & -> & Hl').
      * intros r Hr. apply Hnm. now right.
      * lia.
      * exists al', authors'. split; [reflexivity|]. simpl. lia.
Qed.

Lemma add_more_authors_returns al authors :
  Z.of_nat (length (_list al)) < 28964416 ->
  exists al' authors',
    add_more_authors options (al, authors) = Return (al', authors')
    /\ (length (_list al') <= S (length (_list al)))%nat.
Proof.
  intros Hlen. unfold add_more_authors. destruct (more_authors options).
  - unfold add. cbv beta zeta iota.
    set (al2 := mkAffiliationList (_list al ++ [MORE_AFFILIATION]) _).
    assert (Hlen2 : length (_list al2) = S (length (_list al)))
      by (simpl; rewrite length_app; simpl; lia).
    destruct (get_id_returns al2 MORE_AFFILIATION) as [r ->]; [lia|].
    cbn [bind]. eexists _, _. split; [reflexivity|]. lia.
  - exists al, authors. split; [reflexivity|]. lia.
Qed.

End Main.

(** *** The order of the rows *)

Lemma str_ltb_asym (a b : str) : str_ltb a b = true -> str_ltb b a = false.
Proof.
  revert b. induction a as [|x a IH]; intros [|y b]; simpl; trivial;
    try discriminate.
  destruct (Z.ltb_spec x y), (Z.ltb_spec y x); trivial; try lia;
    try discriminate.
  apply IH.
Qed.

Lemma insert_row_perm (x : Row) (l : list Row) :
  Permutation (x :: l) (insert_row x l).
Proof.
  induction l as [|y l IH]; simpl; [reflexivity|].
  destruct (str_ltb (Lastname y) (Lastname x)); [|reflexivity].
  rewrite perm_swap. now constructor.
Qed.

Lemma sorted_perm (rows : list Row) : Permutation rows (sorted rows).
Proof.
  induction rows as [|x rows IH]; simpl; [constructor|].
  rewrite <- insert_row_perm. now constructor.
Qed.

Lemma insert_row_sorted (x : Row) (l : list Row) :
  Sorted lastname_le l -> Sorted lastname_le (insert_row x l).
Proof.
  induction 1 as [|y l Hs IH Hd]; simpl.
  - repeat constructor.
  - destruct (str_ltb (Lastname y) (Lastname x)) eqn:E.
    + constructor; [exact IH|].
      destruct l as [|z l]; simpl.
      * constructor. now apply str_ltb_asym.
      * destruct (str_ltb (Lastname z) (Lastname x)); constructor.
        -- now inversion Hd.
        -- now apply str_ltb_asym.
    + constructor; [now constructor|]. constructor. exact E.
Qed.

Example sorted_keeps_ties_in_order :
  map Firstnames
      (sorted [mkRow (lit "Zoe") (lit "Zed") [] []; mkRow (lit "Ann") (lit "Abe") [] [];
               mkRow (lit "Bob") (lit "Abe") [] []])
  = [lit "Ann"; lit "Bob"; lit "Zoe"].
Proof. reflexivity. Qed.

(** [sorted] rearranges the rows so that no last name is below the one
    before it. *)
Lemma sorted_sorted (rows : list Row) : Sorted lastname_le (sorted rows).
Proof.
  induction rows as [|x rows IH]; simpl; [constructor|].
  now apply insert_row_sorted.
Qed.

(** ** The two files *)

(** C7 (as amended): [main] writes the authors in the order of the sorted
    rows (then the dummy entry), and the name in each author line is the
    display name with every whitespace character replaced by '~' and nothing
    else changed: [latex_escape] is not applied to it, so the name in the
    line has the length of the display name and carries its other characters
    at their positions. *)
Theorem author_lines_not_escaped `{Capitalize} `{FileSystem}
    (options : Options) (rows : list Row) :
  forall w, main_body options rows = Return w ->
     exists real extra affiliations_part,
       snd (latex_file w)
       = concat (map author_line (real ++ extra)) ++ [nl] ++ affiliations_part
       /\ Forall2 (fun row author =>
                     display_name options row = Return (name author))
                  (sorted rows) real
       /\ Permutation rows (sorted rows)
       /\ Sorted lastname_le (sorted rows)
       /\ ((more_authors options = false /\ extra = [])
           \/ (more_authors options = true
               /\ exists id, extra = [Author_init MORE_NAME id None]))
       /\ forall author,
            author_line author
            = lit "\author[" ++ format_id (affiliation_id author) ++ lit "]{"
                ++ re_sub_space_tilde (name author) ++ orcid_link author
                ++ lit "}" ++ [nl]
            /\ length (re_sub_space_tilde (name author)) = length (name author)
            /\ forall i c,
                 nth_error (name author) i = Some c ->
                 nth_error (re_sub_space_tilde (name author)) i
                 = Some (if is_space c then tilde else c).
Proof.
  intros w Hw.
  apply main_body_writes in Hw.
  destruct Hw as (al & authors & part & Hbuild & Hlatex & _).
  apply build_lists_authors in Hbuild.
  destruct Hbuild as (real & extra & -> & Hreal & Hextra).
  exists real, extra, part. rewrite Hlatex.
  split; [reflexivity|]. split.
  { eapply Forall2_impl; [|exact Hreal].
    intros row author (nm & id & Hnm & -> & _). exact Hnm. }
  split; [apply sorted_perm|]. split; [apply sorted_sorted|].
  split; [exact Hextra|].
  intros author. split; [reflexivity|]. split; [apply length_map|].
  intros i c Hc. unfold re_sub_space_tilde.
  now rewrite nth_error_map, Hc.
Qed.

Lemma author_lines_not_escaped_witness :
  let rows := [mkRow (lit "J") (lit "O_Neil") (lit "R&D Lab") (lit "")] in
  exists w,
    main_body default_options rows = Return w
    /\ exists real extra affiliations_part,
         snd (latex_file w)
         = concat (map author_line (real ++ extra)) ++ [nl] ++ affiliations_part
         /\ Forall2 (fun row author =>
                       display_name default_options row = Return (name author))
                    (sorted rows) real.
Proof.
  intros rows.
  destruct (main_body default_options rows) as [w|e] eqn:Hw; [|discriminate Hw].
  exists w. split; [reflexivity|].
  destruct (author_lines_not_escaped default_options rows w Hw)
    as (real & extra & part & Hlatex & Hreal & _).
  exists real, extra, part. split; [exact Hlatex | exact Hreal].
Defined.

(** C7 (as stated) fails on a name holding a reserved character: the
    line carries "O_Neil" as it is, where the escaped name is "O\_Neil". *)
Lemma author_name_not_escaped :
  let rows := [mkRow (lit "J") (lit "O_Neil") (lit "CERN") (lit "")] in
  let author := Author_init (lit "J O_Neil") (Some (Letters (lit "a")))
                            (Some []) in
  build_lists default_options rows
  = Return (mkAffiliationList [lit "CERN"] true, [author])
  /\ main_body default_options rows
     = Return (mkWritten
                 (LATEX_AUTHOR_FILE_DEFAULT,
                  lit "\author[a]{J~O_Neil}" ++ [nl] ++ [nl]
                    ++ lit "\affiliation[a]{CERN}" ++ [nl])
                 (ARXIV_AUTHOR_FILE_DEFAULT,
                  lit "HEP Software Foundation: J O_Neil" ++ [nl]))
  /\ escaped_author_line author = lit "\author[a]{J~O\_Neil}" ++ [nl]
  /\ author_line author <> escaped_author_line author.
Proof. vm_compute. repeat split; discriminate. Qed.

(** C8: the text written to the arXiv file begins with the constant
    [ARXIV_AUTHORS_PREFIX_DEFAULT] whatever [options.arxiv_authors_prefix]
    holds; the names follow, joined by ", ", in the order of the author
    lines. *)
Theorem arxiv_text_ignores_prefix_option `{Capitalize} `{FileSystem}
    (options : Options) (rows : list Row) (w : Written) :
  main_body options rows = Return w ->
  exists al authors affiliations_part,
    build_lists options rows = Return (al, authors)
    /\ snd (latex_file w)
       = concat (map author_line authors) ++ [nl] ++ affiliations_part
    /\ snd (arxiv_file w)
       = ARXIV_AUTHORS_PREFIX_DEFAULT
           ++ join (lit ", ") (map name authors) ++ [nl].
Proof.
  intros Hw. apply main_body_writes in Hw.
  destruct Hw as (al & authors & part & Hbuild & Hlatex & Harxiv).
  exists al, authors, part. rewrite Hlatex, Harxiv. auto.
Qed.

Lemma arxiv_text_ignores_prefix_option_witness :
  let options :=
    mkOptions ARXIV_AUTHOR_FILE_DEFAULT (lit "ATLAS: ") AUTHOR_FILE_DEFAULT
              false LATEX_AUTHOR_FILE_DEFAULT false true false in
  let rows := [mkRow (lit "Ann") (lit "Abe") (lit "CERN") (lit "")] in
  exists w al authors affiliations_part,
    main_body options rows = Return w
    /\ build_lists options rows = Return (al, authors)
    /\ snd (latex_file w)
       = concat (map author_line authors) ++ [nl] ++ affiliations_part
    /\ snd (arxiv_file w)
       = ARXIV_AUTHORS_PREFIX_DEFAULT
           ++ join (lit ", ") (map name authors) ++ [nl].
Proof.
  intros options rows.
  destruct (main_body options rows) as [w|e] eqn:Hw; [|discriminate Hw].
  exists w.
  destruct (arxiv_text_ignores_prefix_option options rows w Hw)
    as (al & authors & part & Hbuild & Hlatex & Harxiv).
  exists al, authors, part. auto.
Defined.

(** With [--arxiv-authors-prefix "ATLAS: "] the arXiv file still begins
    with "HEP Software Foundation: ". *)
Lemma arxiv_prefix_option_ignored :
  let options :=
    mkOptions ARXIV_AUTHOR_FILE_DEFAULT (lit "ATLAS: ") AUTHOR_FILE_DEFAULT
              false LATEX_AUTHOR_FILE_DEFAULT false true false in
  let rows := [mkRow (lit "Ann") (lit "Abe") (lit "CERN") (lit "")] in
  let author := Author_init (lit "Ann Abe") (Some (Letters (lit "a")))
                            (Some []) in
  main_body options rows
  = Return (mkWritten
              (LATEX_AUTHOR_FILE_DEFAULT,
               lit "\author[a]{Ann~Abe}" ++ [nl] ++ [nl]
                 ++ lit "\affiliation[a]{CERN}" ++ [nl])
              (ARXIV_AUTHOR_FILE_DEFAULT,
               lit "HEP Software Foundation: Ann Abe" ++ [nl]))
  /\ arxiv_text_spec options [author] = lit "ATLAS: Ann Abe" ++ [nl].
Proof. vm_compute. split; reflexivity. Qed.

(** ** ORCID *)

Lemma re_sub_space_tilde_In (s : str) (c : char) :
  In c (re_sub_space_tilde s) -> c = tilde \/ In c s.
Proof.
  unfold re_sub_space_tilde. rewrite in_map_iff. intros (x & <- & Hin).
  destruct (is_space x); auto.
Qed.

(** An author line without an ORCID part holds no "\orcidlink" when
    neither the ID nor the name holds a backslash: its only backslash opens
    "\author". *)
Lemma author_line_no_orcidlink (id_text nm : str) :
  ~ In backslash id_text -> ~ In backslash nm ->
  ~ occurs (lit "\orcidlink")
      (lit "\author[" ++ id_text ++ lit "]{" ++ re_sub_space_tilde nm
         ++ lit "}" ++ [nl]).
Proof.
  intros Hid Hnm (pre & post & Heq).
  change (lit "\author[") with (backslash :: lit "author[") in Heq.
  change (lit "\orcidlink") with (backslash :: lit "orcidlink") in Heq.
  destruct pre as [|c pre].
  - vm_compute in Heq. discriminate Heq.
  - rewrite <- app_comm_cons in Heq. injection Heq as _ Heq.
    match type of Heq with
    | _ = ?r => assert (Hin : In backslash r)
                  by (apply in_or_app; right; now left)
    end.
    rewrite <- Heq in Hin. clear Heq.
    repeat (simpl in Hin; rewrite in_app_iff in Hin). simpl in Hin.
    pose proof (re_sub_space_tilde_In nm backslash) as Hsub.
    intuition discriminate.
Qed.

(** C10: for a row whose ORCID field is the empty string, the author built
    has no ORCID, as if none had been given, and its line is
    [\author[<id>]{<name>}] with nothing after the name; the line holds no
    "\orcidlink" (the name itself being free of backslashes). *)
Theorem empty_orcid_no_orcidlink `{Capitalize} (options : Options)
    (affiliation_list : AffiliationList) (author_list : list Author)
    (row : Row) (state' : AffiliationList * list Author) :
  ORCID row = [] ->
  process_author options (affiliation_list, author_list) row = Return state' ->
  exists author,
    snd state' = author_list ++ [author]
    /\ display_name options row = Return (name author)
    /\ orcid author = None
    /\ author = Author_init (name author) (affiliation_id author) None
    /\ author_line author
       = lit "\author[" ++ format_id (affiliation_id author) ++ lit "]{"
           ++ re_sub_space_tilde (name author) ++ lit "}" ++ [nl]
    /\ (~ In backslash (name author) ->
        ~ occurs (lit "\orcidlink") (author_line author)).
Proof.
  intros Horcid Hstep. destruct state' as [al' authors'].
  apply process_author_appends in Hstep.
  destruct Hstep as (author & (nm & id & Hnm & -> & Hid) & ->).
  rewrite Horcid.
  exists (Author_init nm (Some id) (Some [])).
  repeat split; trivial.
  intros Hname. apply author_line_no_orcidlink; [|exact Hname].
  intros Hin. apply Hid in Hin. unfold backslash in Hin. lia.
Qed.

Lemma empty_orcid_no_orcidlink_witness :
  let row := mkRow (lit "Ann") (lit "Abe") (lit "CERN") (lit "") in
  exists author,
    author_line author = lit "\author[a]{Ann~Abe}" ++ [nl]
    /\ orcid author = None
    /\ ~ occurs (lit "\orcidlink") (author_line author).
Proof.
  intros row.
  destruct (process_author default_options (AffiliationList_init true, []) row)
    as [state'|e] eqn:Hstep; [|discriminate Hstep].
  destruct (empty_orcid_no_orcidlink default_options
              (AffiliationList_init true) [] row state' eq_refl Hstep)
    as (author & Hlist & Hname & Horcid & Hinit & Hline & Hno).
  exists author.
  vm_compute in Hstep. injection Hstep as <-.
  simpl in Hlist. injection Hlist as <-.
  split; [reflexivity|]. split; [reflexivity|].
  apply Hno. vm_compute. intuition discriminate.
Defined.

(** ** Exit status *)

Section Raises.

Context `{Capitalize} `{FileSystem} (options : Options).











Lemma affiliation_lines_raised al affiliations e :
  affiliation_lines al affiliations (Raise e) = Raise e.
Proof. unfold affiliation_lines. induction affiliations; simpl; auto. Qed.



End Raises.


(** C9: the exit statuses of the script are not those the constants name.
    A command-line error ends the process with status 2, the [SystemExit]
    of [argparse] passing through [except Exception]; an exception caught by
    that clause ends it with status 1, [parser.invalid_option_value] raising
    [AttributeError] before [return EXIT_STATUS_OPTION_ERROR]; an unreadable
    authors file ends it with status 1; a complete run ends it with
    status 0.  None of these is [EXIT_STATUS_OPTION_ERROR] (3) or
    [EXIT_STATUS_FAILURE] (5); [script_exit_status_range] covers all runs. *)
Theorem exit_status_not_the_constants (C : Capitalize)
    (read_csv : str -> exc (list Row)) (options : Options) :
  script_exit_status (main (Raise argparse_error) read_csv) = 2
  /\ script_exit_status (main (Raise ValueError) read_csv) = 1
  /\ script_exit_status (main (Return options) (fun _ => Raise OSError)) = 1
  /\ script_exit_status (main (Return options) (fun _ => Raise CsvError)) = 1
  /\ script_exit_status (main (Return options) (fun _ => Raise KeyError)) = 1
  /\ script_exit_status (main (Return default_options) (fun _ => Return [])) = 0
  /\ EXIT_STATUS_OPTION_ERROR = 3
  /\ EXIT_STATUS_FAILURE = 5.
Proof. repeat split. Qed.

(** * Further properties of the code *)

(** ** The registry: IDs tell affiliations apart *)

Lemma list_index_nth_error (l : list str) (a : str) (p : nat) :
  list_index a l = Some p -> nth_error l p = Some a.
Proof.
  revert p. induction l as [|y l IH]; simpl; intros p; [discriminate|].
  destruct (str_eq_dec y a) as [->|_].
  - now intros [= <-].
  - destruct (list_index a l) as [n|]; [|discriminate].
    intros [= <-]. now apply IH.
Qed.

Lemma list_index_app_other (l : list str) (a b : str) :
  b <> a -> list_index b (l ++ [a]) = list_index b l.
Proof.
  intros Hne. induction l as [|y l IH]; simpl.
  - destruct (str_eq_dec a b); [congruence|reflexivity].
  - destruct (str_eq_dec y b); [reflexivity|]. now rewrite IH.
Qed.

Lemma derive_id_injective (index_letter : bool) (p q : Z) (id : index) :
  0 <= p -> 0 <= q ->
  derive_id index_letter p = Return id ->
  derive_id index_letter q = Return id -> p = q.
Proof.
  intros Hp Hq. unfold derive_id. destruct index_letter.
  - cbv zeta. unfold ord_a.
    pose proof (Z.div_mod p 26 ltac:(lia)) as Dp.
    pose proof (Z.div_mod q 26 ltac:(lia)) as Dq.
    pose proof (Z.div_pos p 26 Hp ltac:(lia)) as Pp.
    pose proof (Z.div_pos q 26 Hq ltac:(lia)) as Pq.
    destruct (chr (97 + p mod 26)) as [lp|] eqn:Elp;
      [apply chr_value in Elp | destruct (0 <? p / 26);
         [destruct (chr (97 + p / 26 - 1))|]; discriminate].
    destruct (chr (97 + q mod 26)) as [lq|] eqn:Elq;
      [apply chr_value in Elq | destruct (0 <? q / 26);
         [destruct (chr (97 + q / 26 - 1))|]; discriminate].
    destruct (Z.ltb_spec 0 (p / 26)), (Z.ltb_spec 0 (q / 26)).
    + destruct (chr (97 + p / 26 - 1)) as [hp|] eqn:Ehp; [|discriminate].
      destruct (chr (97 + q / 26 - 1)) as [hq|] eqn:Ehq; [|discriminate].
      apply chr_value in Ehp, Ehq. cbn. intros [= <-] [= E1 E2]. lia.
    + destruct (chr (97 + p / 26 - 1)) as [hp|] eqn:Ehp; [|discriminate].
      cbn. intros [= <-]. discriminate.
    + destruct (chr (97 + q / 26 - 1)) as [hq|] eqn:Ehq; [|discriminate].
      cbn. intros [= <-]. discriminate.
    + cbn. intros [= <-] [= E]. lia.
  - intros [= <-] [= E]. lia.
Qed.

Lemma get_id_same_id (self : AffiliationList) (a b : str) (id : index) :
  get_id self a = Return (Some id) ->
  get_id self b = Return (Some id) ->
  a = b.
Proof.
  unfold get_id.
  destruct (list_index a (_list self)) as [p|] eqn:Ea; [|discriminate].
  destruct (list_index b (_list self)) as [q|] eqn:Eb; [|discriminate].
  destruct (derive_id _ (Z.of_nat p)) as [ia|] eqn:Da; [|discriminate].
  destruct (derive_id _ (Z.of_nat q)) as [ib|] eqn:Db; [|discriminate].
  cbn. intros [= ->] [= ->].
  assert (Hpq : Z.of_nat p = Z.of_nat q)
    by (eapply derive_id_injective; eauto; lia).
  apply Nat2Z.inj in Hpq. subst q.
  apply list_index_nth_error in Ea, Eb. congruence.
Qed.

(** In either mode two affiliations of a registry that get the same ID are
    the same string: the ID determines the position of the first occurrence,
    and the position determines the string. *)
Theorem get_id_injective (self : AffiliationList) (a b : str) (id : index) :
  get_id self a = Return (Some id) ->
  get_id self b = Return (Some id) ->
  a = b.
Proof. apply get_id_same_id. Qed.

Lemma get_id_injective_witness :
  lit "CERN" = [67; 69; 82; 78].
Proof.
  apply (get_id_injective
           (mkAffiliationList [lit "LAL"; lit "CERN"] true)
           (lit "CERN") [67; 69; 82; 78] (Letters (lit "b"))).
  - reflexivity.
  - reflexivity.
Defined.

(** [add(a)] and [get_id]: after [add(a)] the string [a] has an ID or
    [get_id(a)] raises, it is never absent; the outcome of [get_id] for any
    other string is unchanged, and so is the one for [a] when [a] was
    registered before. *)
Theorem add_then_get_id (self : AffiliationList) (a b : str) :
  get_id (fst (add self a)) a <> Return None
  /\ (b <> a \/ In a (_list self) ->
      get_id (fst (add self a)) b = get_id self b).
Proof.
  split.
  - rewrite get_id_absent. simpl. intros Hnin. apply Hnin.
    apply in_or_app. right. now left.
  - intros Hcase. unfold get_id. simpl.
    destruct (str_eq_dec b a) as [->|Hne].
    + destruct Hcase as [Hne|Hin]; [congruence|].
      destruct (list_index a (_list self)) as [p|] eqn:E.
      * now rewrite (list_index_app_old _ [a] _ _ E).
      * apply list_index_None in E. contradiction.
    + now rewrite (list_index_app_other _ _ _ Hne).
Qed.

Lemma add_then_get_id_witness :
  let self := mkAffiliationList [lit "CERN"; lit "LAL"] true in
  get_id (fst (add self (lit "DESY"))) (lit "LAL") = get_id self (lit "LAL")
  /\ get_id (fst (add self (lit "CERN"))) (lit "CERN")
     = get_id self (lit "CERN").
Proof.
  intros self. split.
  - apply (add_then_get_id self (lit "DESY") (lit "LAL")).
    left. discriminate.
  - apply (add_then_get_id self (lit "CERN") (lit "CERN")).
    right. left. reflexivity.
Defined.

(** ** Initials: when the call returns, and what *)

Lemma re_split_space_cons (s : str) :
  exists t ts, re_split_space s = t :: ts.
Proof.
  induction s as [|c s (t & ts & IH)]; simpl; [eauto|].
  destruct (is_space c); [eauto|]. rewrite IH. eauto.
Qed.

Lemma re_split_space_head_empty (s : str) :
  hd [] (re_split_space s) = []
  <-> s = [] \/ exists c r, s = c :: r /\ is_space c = true.
Proof.
  destruct s as [|c r]; simpl; [tauto|].
  destruct (is_space c) eqn:E; simpl.
  - split; [eauto|reflexivity].
  - destruct (re_split_space_cons r) as (t & ts & ->). simpl.
    split; [discriminate|]. intros [H|(c' & r' & [= -> ->] & H)]; congruence.
Qed.

Lemma single_spaced_after_space (s : str) :
  single_spaced true s = false
  <-> (exists c r, s = c :: r /\ is_space c = true)
      \/ single_spaced false s = false.
Proof.
  destruct s as [|c r]; simpl.
  - split; [discriminate|]. intros [(c & r & H & _)|H]; discriminate.
  - destruct (is_space c) eqn:E; simpl.
    + split; eauto.
    + split; [tauto|]. intros [(c' & r' & [= -> ->] & H)|H]; congruence.
Qed.

Lemma re_split_space_later_empty (s : str) :
  In [] (tl (re_split_space s))
  <-> is_space (last s 0) = true \/ single_spaced false s = false.
Proof.
  induction s as [|c r IH].
  - simpl. split; [tauto|]. intros [H|H]; discriminate.
  - assert (Hlast : last (c :: r) 0 = match r with [] => c | _ => last r 0 end)
      by (destruct r; reflexivity).
    rewrite Hlast. cbn [re_split_space single_spaced].
    destruct (is_space c) eqn:E.
    + cbn [tl negb andb]. rewrite single_spaced_after_space.
      destruct (re_split_space_cons r) as (t & ts & Hr).
      pose proof (re_split_space_head_empty r) as Hhd.
      rewrite Hr in IH, Hhd |- *. simpl in IH, Hhd. simpl.
      destruct r as [|d r'].
      * split; [intros _; left; exact E|]. intros _. left. apply Hhd. now left.
      * rewrite IH. split.
        -- intros [Ht|[Hl|Hq]]; [|tauto|tauto]. apply Hhd in Ht.
           destruct Ht as [Ht|Ht]; [discriminate|]. right; now left.
        -- intros [Hl|[Hs|Hq]]; [tauto| |tauto]. left. apply Hhd. now right.
    + destruct (re_split_space_cons r) as (t & ts & Hr).
      rewrite Hr in IH |- *. simpl in IH. simpl. rewrite IH.
      destruct r as [|d r']; [|tauto].
      simpl. rewrite E. tauto.
Qed.

Lemma re_split_space_empty_token (s : str) :
  In [] (re_split_space s) <-> empty_token_input s = true.
Proof.
  pose proof (re_split_space_head_empty s) as Hhd.
  pose proof (re_split_space_later_empty s) as Htl.
  destruct (re_split_space_cons s) as (t & ts & Hs).
  rewrite Hs in Hhd, Htl |- *. simpl in Hhd, Htl. simpl.
  rewrite Htl. unfold empty_token_input.
  destruct s as [|c r];
    [split; [reflexivity|]; intros _; left; apply Hhd; now left|].
  rewrite !orb_true_iff, negb_true_iff.
  split.
  - intros [Ht|[Hl|Hq]]; [|tauto|tauto].
    apply Hhd in Ht.
    destruct Ht as [Ht|(c' & r' & [= -> ->] & Ht)]; [discriminate|tauto].
  - intros [[Hc|Hl]|Hq]; [|tauto|tauto].
    left. apply Hhd. right. eauto.
Qed.

Lemma re_split_space_no_space (s : str) :
  forall t c, In t (re_split_space s) -> In c t -> is_space c = false.
Proof.
  induction s as [|x s IH]; simpl; intros t c.
  - intros [<-|[]] [].
  - destruct (is_space x) eqn:E.
    + intros [<-|Hin]; [intros []|now apply IH].
    + destruct (re_split_space s) as [|t0 ts]; simpl.
      * intros [<-|[]] [<-|[]]. exact E.
      * intros [<-|Hin].
        -- intros [<-|Hc]; [exact E|]. apply (IH t0 c); [now left|exact Hc].
        -- apply IH. now right.
Qed.

Section InitialsValue.

Context `{Capitalize}.

Lemma initials_loop_value tokens initials :
  ~ In [] tokens ->
  fold_left initials_step tokens (Return initials)
  = Return (initials ++ concat (map initial_of tokens)).
Proof.
  revert initials. induction tokens as [|t tokens IH]; intros initials Hnin.
  - simpl. now rewrite app_nil_r.
  - simpl. unfold initial_of at 1.
    destruct t as [|c r]; [exfalso; apply Hnin; now left|].
    pose proof (capitalize_cons c r) as Hne.
    destruct (capitalize (c :: r)) as [|c' r']; [contradiction|].
    rewrite IH by (intros Hin; apply Hnin; now right).
    now rewrite <- app_assoc.
Qed.

Lemma strip_fixed (c : char) (s : str) :
  is_space c = false ->
  strip (c :: s ++ lit ".") = c :: s ++ lit ".".
Proof.
  intros Hc. unfold strip. cbn [lstrip]. rewrite Hc.
  change (c :: s ++ lit ".") with ((c :: s) ++ [46]).
  rewrite rev_app_distr. cbn [rev app lstrip].
  change (is_space 46) with false. cbn iota.
  change (46 :: rev s ++ [c]) with (rev [46] ++ rev (c :: s)).
  now rewrite <- rev_app_distr, rev_involutive.
Qed.

End InitialsValue.

(** [firstnames_to_initials] raises [IndexError] exactly on the inputs that
    are empty, begin or end with whitespace, or hold two adjacent whitespace
    characters; on every other input it returns. *)
Theorem firstnames_to_initials_raises_iff `{Capitalize} (firstnames : str) :
  (firstnames_to_initials firstnames = Raise IndexError
   <-> empty_token_input firstnames = true)
  /\ (empty_token_input firstnames = false ->
      exists r, firstnames_to_initials firstnames = Return r).
Proof.
  destruct (firstnames_to_initials_outcome firstnames) as [Hraise Hret].
  rewrite <- re_split_space_empty_token.
  split.
  - split; [|exact Hraise]. intros Hr.
    destruct (in_dec str_eq_dec [] (re_split_space firstnames)) as [Hin|Hnin];
      [exact Hin|].
    destruct (Hret Hnin) as [r Hr']. congruence.
  - intros Hok. apply Hret. rewrite re_split_space_empty_token. congruence.
Qed.

Lemma firstnames_to_initials_raises_iff_witness :
  exists r, firstnames_to_initials (lit "Marie Anne") = Return r.
Proof.
  apply (firstnames_to_initials_raises_iff (lit "Marie Anne")).
  reflexivity.
Defined.

(** On an input that cuts into non-empty tokens the result is, token by
    token, the first character of the capitalized token followed by a dot,
    two characters per token; the final [strip()] removes nothing, since the
    capitalized form of a token begins with a character that is not
    whitespace. *)
Theorem firstnames_to_initials_value `{Capitalize} (firstnames : str) :
  (forall c r, is_space c = false ->
     exists c' r', capitalize (c :: r) = c' :: r' /\ is_space c' = false) ->
  empty_token_input firstnames = false ->
  firstnames_to_initials firstnames
  = Return (concat (map initial_of (re_split_space firstnames)))
  /\ length (concat (map initial_of (re_split_space firstnames)))
     = (2 * length (re_split_space firstnames))%nat.
Proof.
  intros Hcap Hok.
  assert (Hnin : ~ In [] (re_split_space firstnames))
    by (rewrite re_split_space_empty_token; congruence).
  pose proof (re_split_space_no_space firstnames) as Hns.
  unfold firstnames_to_initials.
  rewrite (initials_loop_value _ [] Hnin). cbn [bind app].
  assert (Hshape : forall t, In t (re_split_space firstnames) ->
            exists c, initial_of t = [c; 46] /\ is_space c = false).
  { intros t Hin. destruct t as [|c r]; [contradiction|].
    destruct (Hcap c r) as (c' & r' & Hc & Hsp).
    - apply (Hns (c :: r)); [exact Hin|now left].
    - exists c'. unfold initial_of. rewrite Hc. now split. }
  split.
  - f_equal.
    destruct (re_split_space_cons firstnames) as (t & ts & Hs).
    rewrite Hs in Hshape |- *.
    destruct (Hshape t (or_introl eq_refl)) as (c & Hc & Hsp).
    assert (Hlast : exists body,
              concat (map initial_of (t :: ts)) = c :: body ++ lit ".").
    { clear Hs Hnin Hns. revert t c Hc Hsp Hshape.
      induction ts as [|t2 ts IH]; intros t c Hc Hsp Hshape.
      - exists []. simpl. rewrite Hc. reflexivity.
      - destruct (Hshape t2 (or_intror (or_introl eq_refl))) as (c2 & Hc2 & Hsp2).
        destruct (IH t2 c2 Hc2 Hsp2) as [body Hbody].
        + intros t' Hin. apply Hshape. now right.
        + exists (46 :: c2 :: body).
          change (map initial_of (t :: t2 :: ts))
            with (initial_of t :: map initial_of (t2 :: ts)).
          cbn [concat]. rewrite Hbody, Hc. reflexivity. }
    destruct Hlast as [body ->]. now apply strip_fixed.
  - clear Hnin Hns. induction (re_split_space firstnames) as [|t ts IH].
    + reflexivity.
    + cbn [map concat]. rewrite length_app, IH.
      * destruct (Hshape t (or_introl eq_refl)) as (c & -> & _). simpl. lia.
      * intros t' Hin. apply Hshape. now right.
Qed.

Lemma firstnames_to_initials_value_witness :
  firstnames_to_initials (lit "marie anne")
  = Return (concat (map initial_of (re_split_space (lit "marie anne")))).
Proof.
  apply (firstnames_to_initials_value (lit "marie anne")).
  - intros c r Hc. exists (ascii_upper c), (map ascii_lower r).
    split; [reflexivity|]. unfold ascii_upper.
    destruct ((97 <=? c) && (c <=? 122)) eqn:E; [|exact Hc].
    apply andb_true_iff in E. destruct E as [E1 E2].
    apply Z.leb_le in E1, E2. unfold is_space.
    repeat match goal with
           | |- context [?a <=? ?b] =>
               destruct (Z.leb_spec a b); try lia
           | |- context [?a =? ?b] =>
               destruct (Z.eqb_spec a b); try lia
           end; reflexivity.
  - reflexivity.
Defined.

Example empty_token_input_cases :
  map empty_token_input
      [lit ""; lit " a"; lit "a "; lit "a  b"; lit "a b"; lit "a"; lit " "]
  = [true; true; true; true; false; false; true].
Proof. reflexivity. Qed.

(** ** Escaping: the special characters *)

Lemma re_sub_char_In (ch : char) (repl s : str) (c : char) :
  In c (re_sub_char ch repl s) -> In c repl \/ (In c s /\ c <> ch).
Proof.
  unfold re_sub_char. rewrite in_flat_map. intros (x & Hx & Hc).
  destruct (Z.eqb_spec x ch) as [->|Hne]; [now left|].
  destruct Hc as [<-|[]]. right. now split.
Qed.

Lemma re_sub_char_keeps (ch : char) (repl s : str) (c : char) :
  In c s -> c <> ch -> In c (re_sub_char ch repl s).
Proof.
  intros Hin Hne. unfold re_sub_char. rewrite in_flat_map.
  exists c. split; [exact Hin|].
  destruct (Z.eqb_spec c ch); [contradiction|now left].
Qed.

Lemma re_sub_char_app (ch : char) (repl s1 s2 : str) :
  re_sub_char ch repl (s1 ++ s2)
  = re_sub_char ch repl s1 ++ re_sub_char ch repl s2.
Proof. unfold re_sub_char. apply flat_map_app. Qed.

Lemma re_sub_char_split (ch : char) (repl s1 s2 : str) :
  re_sub_char ch repl (s1 ++ ch :: s2)
  = re_sub_char ch repl s1 ++ repl ++ re_sub_char ch repl s2.
Proof.
  unfold re_sub_char. rewrite flat_map_app. cbn [flat_map].
  now rewrite Z.eqb_refl.
Qed.

Lemma sub_chars_to_escape_keeps (b : bool) (s : str) (c : char) :
  In c s -> In c (sub_chars_to_escape b s).
Proof.
  revert b. induction s as [|x s IH]; simpl; intros b; [tauto|].
  rewrite in_app_iff. intros [<-|Hin].
  - left. destruct (is_reserved x && negb b); simpl; auto.
  - right. now apply IH.
Qed.

Lemma sub_chars_to_escape_fixed_inv (b : bool) (s : str) :
  sub_chars_to_escape b s = s -> all_escaped b s = true.
Proof.
  revert b. induction s as [|x s IH]; simpl; intros b; [trivial|].
  destruct (is_reserved x) eqn:Hx, b; simpl.
  - intros [= E]. now apply IH.
  - intros [= E _]. rewrite <- E in Hx. vm_compute in Hx. discriminate Hx.
  - intros [= E]. now apply IH.
  - intros [= E]. now apply IH.
Qed.

Lemma all_escaped_dollar (pre post : str) (x : char) :
  x <> backslash -> all_escaped false ((pre ++ [x]) ++ 36 :: post) = false.
Proof.
  intros Hx. destruct (all_escaped false _) eqn:E; [|reflexivity].
  destruct (all_escaped_preceded _ _ _ _ _ E eq_refl eq_refl)
    as [[Hnil _]|[pre' Hpre]].
  - now destruct pre.
  - apply app_inj_tail in Hpre. destruct Hpre as [_ ->]. contradiction.
Qed.

Lemma latex_escape_specials_gone (s : str) :
  ~ In tilde (latex_escape s) /\ ~ In circumflex (latex_escape s).
Proof.
  unfold latex_escape, SPECIAL_LATEX_CHARS. cbn [fold_left fst snd].
  split; intros Hin.
  - apply re_sub_char_In in Hin. destruct Hin as [Hin|[Hin _]].
    + vm_compute in Hin. intuition discriminate.
    + apply re_sub_char_In in Hin. destruct Hin as [Hin|[_ Hne]].
      * vm_compute in Hin. intuition discriminate.
      * now apply Hne.
  - apply re_sub_char_In in Hin. destruct Hin as [Hin|[_ Hne]].
    + vm_compute in Hin. intuition discriminate.
    + now apply Hne.
Qed.

Lemma sub_chars_to_escape_split (b : bool) (s1 s2 : str) (c : char) :
  is_reserved c = false -> c <> backslash ->
  sub_chars_to_escape b (s1 ++ c :: s2)
  = sub_chars_to_escape b s1 ++ [c] ++ sub_chars_to_escape false s2.
Proof.
  intros Hres Hne. revert b. induction s1 as [|x s1 IH]; intros b.
  - cbn [app sub_chars_to_escape]. rewrite Hres. cbn [andb].
    destruct (Z.eqb_spec c backslash); [contradiction|reflexivity].
  - cbn [app sub_chars_to_escape]. rewrite IH. now rewrite <- app_assoc.
Qed.

(** Every '~' of the input is replaced by the macro [$\textasciitilde$] and
    every '^' by [$\textasciicircum$], the text before and the text after
    being escaped as if each stood alone; no '~' and no '^' is left in the
    result. *)
Theorem latex_escape_replaces_specials (s1 s2 : str) :
  latex_escape (s1 ++ tilde :: s2)
  = latex_escape s1 ++ lit "$\textasciitilde$" ++ latex_escape s2
  /\ latex_escape (s1 ++ circumflex :: s2)
     = latex_escape s1 ++ lit "$\textasciicircum$" ++ latex_escape s2
  /\ ~ In tilde (latex_escape (s1 ++ s2))
  /\ ~ In circumflex (latex_escape (s1 ++ s2)).
Proof.
  split; [|split; [|apply latex_escape_specials_gone]].
  - unfold latex_escape, SPECIAL_LATEX_CHARS. cbn [fold_left fst snd].
    rewrite (sub_chars_to_escape_split false s1 s2 tilde eq_refl)
      by discriminate.
    cbn [app]. rewrite re_sub_char_split, !re_sub_char_app.
    do 2 f_equal.
  - unfold latex_escape, SPECIAL_LATEX_CHARS. cbn [fold_left fst snd].
    rewrite (sub_chars_to_escape_split false s1 s2 circumflex eq_refl)
      by discriminate.
    cbn [app]. rewrite re_sub_char_app.
    change (re_sub_char tilde (lit "$\textasciitilde$")
              (circumflex :: sub_chars_to_escape false s2))
      with (circumflex
            :: re_sub_char tilde (lit "$\textasciitilde$")
                 (sub_chars_to_escape false s2)).
    now rewrite re_sub_char_split.
Qed.

Lemma latex_escape_unchanged_iff (s : str) :
  latex_escape s = s
  <-> all_escaped false s = true /\ ~ In tilde s /\ ~ In circumflex s.
Proof.
  split.
  - intros Hfix.
    destruct (latex_escape_specials_gone s) as [Ht Hc].
    rewrite Hfix in Ht, Hc. split; [|tauto].
    rewrite (latex_escape_no_special s Ht Hc) in Hfix.
    now apply sub_chars_to_escape_fixed_inv.
  - intros (Hesc & Ht & Hc).
    rewrite (latex_escape_no_special s Ht Hc).
    now apply sub_chars_to_escape_fixed.
Qed.

(** The strings that [latex_escape] returns unchanged are those without
    '~' and '^' in which every one of & % $ # _ { } comes right after a
    backslash. *)
Theorem latex_escape_fixed_points (s : str) :
  latex_escape s = s
  <-> all_escaped false s = true /\ ~ In tilde s /\ ~ In circumflex s.
Proof. apply latex_escape_unchanged_iff. Qed.

(** On a string with a '~' or a '^', [latex_escape] applied twice differs
    from [latex_escape] applied once: the macro put in place of the
    character ends with a '$' that follows a letter, and the second pass
    escapes it. *)
Theorem latex_escape_twice_differs (s : str) :
  In tilde s \/ In circumflex s ->
  latex_escape (latex_escape s) <> latex_escape s.
Proof.
  intros Hspecial Hfix.
  apply latex_escape_unchanged_iff in Hfix. destruct Hfix as [Hesc _].
  assert (Hshape : exists (pre : str) (x : char) (post : str),
            latex_escape s = (pre ++ [x]) ++ 36 :: post /\ x <> backslash).
  { unfold latex_escape, SPECIAL_LATEX_CHARS. cbn [fold_left fst snd].
    set (u := sub_chars_to_escape false s).
    destruct (in_dec Z.eq_dec tilde u) as [Ht|Hnt].
    - apply in_split in Ht. destruct Ht as (u1 & u2 & ->).
      rewrite re_sub_char_split, !re_sub_char_app.
      replace (re_sub_char circumflex (lit "$\textasciicircum$")
                 (lit "$\textasciitilde$"))
        with ((lit "$\textasciitild" ++ [101]) ++ 36 :: [])
        by (vm_compute; reflexivity).
      match goal with
      | |- exists pre x post, ?A ++ _ ++ ?B = _ /\ _ =>
          exists (A ++ lit "$\textasciitild"), 101, B
      end.
      split; [|discriminate]. rewrite <- !app_assoc. reflexivity.
    - assert (Hc : In circumflex u).
      { destruct Hspecial as [Ht|Hc];
          [exfalso; apply Hnt; now apply sub_chars_to_escape_keeps|].
        now apply sub_chars_to_escape_keeps. }
      rewrite (re_sub_char_absent tilde _ u Hnt).
      apply in_split in Hc. destruct Hc as (u1 & u2 & ->).
      rewrite re_sub_char_split.
      change (lit "$\textasciicircum$")
        with ((lit "$\textasciicircu" ++ [109]) ++ 36 :: []) at 2.
      match goal with
      | |- exists pre x post, ?A ++ _ ++ ?B = _ /\ _ =>
          exists (A ++ lit "$\textasciicircu"), 109, B
      end.
      split; [|discriminate]. rewrite <- !app_assoc. reflexivity. }
  destruct Hshape as (pre & x & post & Heq & Hx).
  rewrite Heq in Hesc.
  exact (eq_true_false_abs _ Hesc (all_escaped_dollar pre post x Hx)).
Qed.

Lemma latex_escape_twice_differs_witness :
  latex_escape (latex_escape (lit "a~b")) <> latex_escape (lit "a~b").
Proof.
  apply (latex_escape_twice_differs (lit "a~b")).
  left. right. left. reflexivity.
Defined.

(** ** Names in the author lines: no whitespace is left *)

(** The name written in an author line holds no whitespace character, so
    replacing whitespace a second time changes nothing. *)
Theorem re_sub_space_tilde_no_whitespace (s : str) :
  (forall c, In c (re_sub_space_tilde s) -> is_space c = false)
  /\ re_sub_space_tilde (re_sub_space_tilde s) = re_sub_space_tilde s.
Proof.
  assert (Hno : forall c, In c (re_sub_space_tilde s) -> is_space c = false).
  { intros c Hin. unfold re_sub_space_tilde in Hin.
    apply in_map_iff in Hin. destruct Hin as (x & <- & _).
    destruct (is_space x) eqn:E; [reflexivity|exact E]. }
  split; [exact Hno|].
  induction (re_sub_space_tilde s) as [|c t IH]; [reflexivity|].
  simpl. rewrite (Hno c (or_introl eq_refl)). f_equal.
  apply IH. intros c' Hin. apply Hno. now right.
Qed.

(** ** The order of the authors *)

Lemma str_ltb_irrefl (a : str) : str_ltb a a = false.
Proof.
  induction a as [|x a IH]; simpl; [reflexivity|].
  rewrite Z.ltb_irrefl. exact IH.
Qed.

Lemma str_ltb_trans (a b c : str) :
  str_ltb a b = true -> str_ltb b c = true -> str_ltb a c = true.
Proof.
  revert b c. induction a as [|x a IH]; intros [|y b] [|z c]; simpl; trivial;
    try discriminate.
  destruct (Z.ltb_spec x y), (Z.ltb_spec y x), (Z.ltb_spec y z),
    (Z.ltb_spec z y), (Z.ltb_spec x z), (Z.ltb_spec z x);
    trivial; try lia; try discriminate.
  apply IH.
Qed.

Lemma str_ltb_connected (a b : str) :
  str_ltb a b = false -> str_ltb b a = false -> a = b.
Proof.
  revert b. induction a as [|x a IH]; intros [|y b]; simpl; trivial;
    try discriminate.
  destruct (Z.ltb_spec x y), (Z.ltb_spec y x); try discriminate; try lia.
  intros Hab Hba. f_equal; [lia|now apply IH].
Qed.

Lemma lastname_le_trans (x y z : Row) :
  lastname_le x y -> lastname_le y z -> lastname_le x z.
Proof.
  unfold lastname_le. intros Hxy Hyz.
  destruct (str_ltb (Lastname z) (Lastname x)) eqn:Hzx; [|reflexivity].
  destruct (str_ltb (Lastname x) (Lastname y)) eqn:Hlt.
  - rewrite (str_ltb_trans _ _ _ Hzx Hlt) in Hyz. discriminate.
  - rewrite <- (str_ltb_connected _ _ Hlt Hxy) in Hyz. congruence.
Qed.

Lemma insert_row_filter (k : str) (x : Row) (l : list Row) :
  filter (fun r => str_eqb (Lastname r) k) (insert_row x l)
  = filter (fun r => str_eqb (Lastname r) k) (x :: l).
Proof.
  induction l as [|y l IH]; [reflexivity|].
  cbn [insert_row].
  destruct (str_ltb (Lastname y) (Lastname x)) eqn:E; [|reflexivity].
  cbn [filter] in IH |- *. rewrite IH.
  destruct (str_eqb (Lastname x) k) eqn:Ex; [|reflexivity].
  destruct (str_eqb (Lastname y) k) eqn:Ey; [|reflexivity].
  apply str_eqb_eq in Ex, Ey. rewrite Ex, Ey, str_ltb_irrefl in E.
  discriminate.
Qed.

(** [main] goes through the rows in a stable sort by last name: the sorted
    list is a rearrangement of the rows, no last name in it is below an
    earlier one (code points compared in turn), and the rows with a given
    last name keep the order they have in the file. *)
Theorem sorted_is_stable_sort (rows : list Row) :
  Permutation rows (sorted rows)
  /\ StronglySorted lastname_le (sorted rows)
  /\ forall k,
       filter (fun r => str_eqb (Lastname r) k) (sorted rows)
       = filter (fun r => str_eqb (Lastname r) k) rows.
Proof.
  split; [apply sorted_perm|]. split.
  - apply Sorted_StronglySorted; [|apply sorted_sorted].
    intros x y z. apply lastname_le_trans.
  - intros k. induction rows as [|x rows IH]; [reflexivity|].
    cbn [sorted fold_right]. fold (sorted rows).
    rewrite insert_row_filter. cbn [filter]. now rewrite IH.
Qed.

(** ** The registry built by [main] *)

Lemma str_eqb_refl (a : str) : str_eqb a a = true.
Proof. unfold str_eqb. destruct (str_eq_dec a a); congruence. Qed.

Lemma distinct_In (xs : list str) (a : str) : In a (distinct xs) <-> In a xs.
Proof.
  induction xs as [|x xs IH]; simpl; [tauto|].
  rewrite filter_In, IH, negb_true_iff.
  destruct (str_eq_dec x a) as [->|Hne]; [tauto|].
  split; [tauto|]. intros [H|H]; [tauto|]. right. split; [exact H|].
  destruct (str_eqb x a) eqn:E; [apply str_eqb_eq in E; contradiction|reflexivity].
Qed.

Lemma distinct_NoDup (xs : list str) : NoDup (distinct xs).
Proof.
  induction xs as [|x xs IH]; simpl; constructor.
  - rewrite filter_In, str_eqb_refl. intros [_ H]. discriminate.
  - now apply NoDup_filter.
Qed.

Lemma filter_filter {A} (P Q : A -> bool) (l : list A) :
  filter P (filter Q l) = filter (fun y => P y && Q y) l.
Proof.
  induction l as [|y l IH]; simpl; [reflexivity|].
  destruct (Q y); simpl; destruct (P y); simpl; now rewrite IH.
Qed.

Lemma absent_app (l : list str) (x y : str) :
  absent (l ++ [x]) y = absent l y && negb (str_eqb x y).
Proof.
  unfold absent, str_eqb.
  destruct (in_dec str_eq_dec y (l ++ [x])) as [Hin|Hnin],
    (in_dec str_eq_dec y l) as [Hl|Hnl],
    (str_eq_dec x y) as [->|Hne]; simpl; trivial; exfalso.
  - apply in_app_or in Hin. destruct Hin as [Hin|[Hin|[]]]; contradiction.
  - apply Hnin, in_or_app. now left.
  - apply Hnin, in_or_app. now left.
  - apply Hnin, in_or_app. right. now left.
Qed.

(** The look-up-then-add turns, starting from the registry [l], leave [l]
    followed by the new strings, each once, in the order they first come. *)
Lemma register_fold (xs l : list str) :
  fold_left register xs l = l ++ filter (absent l) (distinct xs).
Proof.
  revert l. induction xs as [|x xs IH]; intros l; simpl.
  - now rewrite app_nil_r.
  - rewrite IH. unfold register. cbn [filter].
    destruct (in_dec str_eq_dec x l) as [Hin|Hnin].
    + assert (Hx : absent l x = false)
        by (unfold absent; destruct (in_dec str_eq_dec x l);
            [reflexivity|contradiction]).
      rewrite Hx, filter_filter. f_equal. apply filter_ext. intros y.
      unfold absent, str_eqb.
      destruct (in_dec str_eq_dec y l); [reflexivity|].
      destruct (str_eq_dec x y); [congruence|reflexivity].
    + assert (Hx : absent l x = true)
        by (unfold absent; destruct (in_dec str_eq_dec x l);
            [contradiction|reflexivity]).
      rewrite Hx, filter_filter, <- app_assoc. cbn [app]. do 2 f_equal.
      apply filter_ext. intros y. apply absent_app.
Qed.

Lemma register_fold_nil (xs : list str) : fold_left register xs [] = distinct xs.
Proof.
  rewrite register_fold. cbn [app].
  induction (distinct xs) as [|y l IH]; simpl; [reflexivity|]. now rewrite IH.
Qed.

Lemma get_id_extends (al1 al2 : AffiliationList) (suffix : list str)
    (a : str) (r : option index) :
  _list al2 = _list al1 ++ suffix ->
  _index_letter al2 = _index_letter al1 ->
  r <> None ->
  get_id al1 a = Return r -> get_id al2 a = Return r.
Proof.
  intros Hl Hb Hr. unfold get_id. rewrite Hl, Hb.
  destruct (list_index a (_list al1)) as [p|] eqn:E.
  - now rewrite (list_index_app_old _ suffix _ _ E).
  - intros [= <-]. contradiction.
Qed.

Lemma Forall2_combine_In {A B} (R : A -> B -> Prop) (l : list A) (l' : list B)
    (x : A) (y : B) :
  Forall2 R l l' -> In (x, y) (combine l l') -> R x y.
Proof.
  induction 1 as [|a b l l' Hab Hrest IH]; simpl; [tauto|].
  intros [[= <- <-]|Hin]; auto.
Qed.

Lemma Forall2_In_l {A B} (R : A -> B -> Prop) (l : list A) (l' : list B)
    (x : A) :
  Forall2 R l l' -> In x l -> exists y, R x y.
Proof.
  induction 1 as [|a b l l' Hab Hrest IH]; simpl; [tauto|].
  intros [<-|Hin]; eauto.
Qed.

Section MainRegistry.

Context `{Capitalize} (options : Options).

Lemma process_author_registry al authors row al' authors' :
  process_author options (al, authors) row = Return (al', authors') ->
  _list al' = register (_list al) (Affiliation row)
  /\ _index_letter al' = _index_letter al
  /\ exists author, authors' = authors ++ [author] /\ id_of_row al' row author.
Proof.
  unfold process_author, register.
  destruct (get_id al (Affiliation row)) as [[id|]|e] eqn:G; cbn [bind].
  - destruct (display_name options row) as [nm|]; [|discriminate].
    cbn [bind fst snd]. intros [= <- <-].
    destruct (in_dec str_eq_dec (Affiliation row) (_list al)) as [Hin|Hnin].
    + repeat split. eexists. split; [reflexivity|].
      split; [exact G|discriminate].
    + apply get_id_absent in Hnin. congruence.
  - unfold add. cbv beta zeta iota.
    set (al2 := mkAffiliationList (_list al ++ [Affiliation row]) _).
    destruct (get_id al2 (Affiliation row)) as [r|] eqn:G2; [|discriminate].
    assert (Hin : In (Affiliation row) (_list al2))
      by (simpl; apply in_or_app; right; now left).
    destruct (get_id_present _ _ _ Hin G2) as [id ->].
    cbn [bind].
    destruct (display_name options row) as [nm|]; [|discriminate].
    cbn [bind fst snd]. intros [= <- <-].
    apply get_id_absent in G.
    destruct (in_dec str_eq_dec (Affiliation row) (_list al)); [contradiction|].
    repeat split. eexists. split; [reflexivity|].
    split; [exact G2|discriminate].
  - discriminate.
Qed.

Lemma authors_loop_registry rows al authors al' authors' :
  authors_loop options rows (Return (al, authors)) = Return (al', authors') ->
  _list al' = fold_left register (map Affiliation rows) (_list al)
  /\ _index_letter al' = _index_letter al
  /\ exists new, authors' = authors ++ new
                 /\ Forall2 (id_of_row al') rows new.
Proof.
  revert al authors. induction rows as [|row rows IH]; intros al authors.
  - intros [= <- <-]. repeat split. exists []. now rewrite app_nil_r.
  - change (authors_loop options (row :: rows) (Return (al, authors)))
      with (authors_loop options rows (process_author options (al, authors) row)).
    destruct (process_author options (al, authors) row)
      as [[al1 authors1]|e] eqn:P; [|now rewrite authors_loop_raised].
    intros Hloop. apply IH in Hloop.
    destruct Hloop as (Hl & Hb & new & -> & Hnew).
    apply process_author_registry in P.
    destruct P as (Hl1 & Hb1 & author & -> & Hid & Hsome).
    cbn [map fold_left]. rewrite <- Hl1.
    split; [exact Hl|]. split; [congruence|].
    exists (author :: new). rewrite <- app_assoc. split; [reflexivity|].
    constructor; [|exact Hnew]. split; [|exact Hsome].
    rewrite register_fold in Hl.
    eapply get_id_extends; eauto.
Qed.

Lemma add_more_authors_value al authors al' authors' :
  more_authors options = true ->
  add_more_authors options (al, authors) = Return (al', authors') ->
  _list al' = _list al ++ [MORE_AFFILIATION]
  /\ _index_letter al' = _index_letter al
  /\ exists id, get_id al' MORE_AFFILIATION = Return (Some id)
                /\ authors' = authors ++ [mkAuthor MORE_NAME (Some id) None].
Proof.
  intros Hmore. unfold add_more_authors. rewrite Hmore.
  unfold add. cbv beta zeta iota.
  set (al2 := mkAffiliationList (_list al ++ [MORE_AFFILIATION]) _).
  destruct (get_id al2 MORE_AFFILIATION) as [r|] eqn:G; [|discriminate].
  assert (Hin : In MORE_AFFILIATION (_list al2))
    by (simpl; apply in_or_app; right; now left).
  destruct (get_id_present _ _ _ Hin G) as [id ->].
  cbn [bind]. intros [= <- <-]. repeat split. exists id. now split.
Qed.

Lemma build_lists_registry rows al authors :
  build_lists options rows = Return (al, authors) ->
  _list al = distinct (map Affiliation (sorted rows))
               ++ (if more_authors options then [MORE_AFFILIATION] else [])
  /\ _index_letter al = negb (affiliation_numbers options)
  /\ exists real extra,
       authors = real ++ extra
       /\ Forall2 (id_of_row al) (sorted rows) real
       /\ ((more_authors options = false /\ extra = [])
           \/ (more_authors options = true
               /\ exists id, get_id al MORE_AFFILIATION = Return (Some id)
                  /\ extra = [mkAuthor MORE_NAME (Some id) None])).
Proof.
  unfold build_lists. cbv zeta.
  destruct (authors_loop _ _ _) as [[al1 authors1]|] eqn:L; [|discriminate].
  cbn [bind]. intros M.
  apply authors_loop_registry in L.
  destruct L as (Hl & Hb & real & -> & Hreal).
  simpl in Hl, Hb. rewrite register_fold_nil in Hl.
  destruct (more_authors options) eqn:Hmore.
  - apply add_more_authors_value in M; [|exact Hmore].
    destruct M as (Hl2 & Hb2 & id & Hid & ->).
    split; [congruence|]. split; [congruence|].
    exists real, [mkAuthor MORE_NAME (Some id) None].
    rewrite app_nil_l in *. split; [reflexivity|]. split.
    + eapply Forall2_impl; [|exact Hreal].
      intros row author [Hrow Hsome]. split; [|exact Hsome].
      eapply get_id_extends; eauto.
    + right. eauto.
  - unfold add_more_authors in M. rewrite Hmore in M.
    injection M as <- <-. rewrite app_nil_r.
    split; [exact Hl|]. split; [exact Hb|].
    exists real, []. rewrite app_nil_r. auto.
Qed.

End MainRegistry.

(** When the writing begins the registry holds the affiliations of the
    rows, each once, in the order in which they first come in the sorted
    rows, then the affiliation of the dummy entry if it was asked for. *)
Theorem registry_is_distinct_affiliations `{Capitalize}
    (options : Options) (rows : list Row)
    (al : AffiliationList) (authors : list Author) :
  build_lists options rows = Return (al, authors) ->
  _list al = distinct (map Affiliation (sorted rows))
               ++ (if more_authors options then [MORE_AFFILIATION] else [])
  /\ _index_letter al = negb (affiliation_numbers options)
  /\ NoDup (distinct (map Affiliation (sorted rows)))
  /\ forall a, In a (distinct (map Affiliation (sorted rows)))
               <-> exists row, In row rows /\ Affiliation row = a.
Proof.
  intros Hbuild. apply build_lists_registry in Hbuild.
  destruct Hbuild as (Hl & Hb & _).
  split; [exact Hl|]. split; [exact Hb|]. split; [apply distinct_NoDup|].
  intros a. rewrite distinct_In, in_map_iff.
  pose proof (sorted_perm rows) as Hperm.
  split; intros (row & H1 & H2).
  - exists row. split; [|exact H1].
    now apply (Permutation_in _ (Permutation_sym Hperm)).
  - exists row. split; [exact H2|]. now apply (Permutation_in _ Hperm).
Qed.

Lemma registry_is_distinct_affiliations_witness :
  let rows := [mkRow (lit "Zoe") (lit "Zed") (lit "CERN") [];
               mkRow (lit "Ann") (lit "Abe") (lit "LAL") [];
               mkRow (lit "Bob") (lit "Best") (lit "CERN") []] in
  exists al authors,
    build_lists default_options rows = Return (al, authors)
    /\ _list al = [lit "LAL"; lit "CERN"].
Proof.
  intros rows.
  destruct (build_lists default_options rows) as [[al authors]|e] eqn:B;
    [|discriminate B].
  exists al, authors. split; [reflexivity|].
  destruct (registry_is_distinct_affiliations default_options rows al authors B)
    as (Hl & _).
  rewrite Hl. reflexivity.
Defined.

(** The ID in an author line is the ID of the affiliation of the row in the
    final registry, the one written in the affiliation line; so two authors
    have the same ID exactly when their rows have the same affiliation. *)
Theorem author_ids_follow_affiliations `{Capitalize}
    (options : Options) (rows : list Row)
    (al : AffiliationList) (authors : list Author) :
  build_lists options rows = Return (al, authors) ->
  exists real extra,
    authors = real ++ extra
    /\ Forall2 (fun row author =>
                  get_id al (Affiliation row) = Return (affiliation_id author)
                  /\ affiliation_id author <> None)
               (sorted rows) real
    /\ forall r1 a1 r2 a2,
         In (r1, a1) (combine (sorted rows) real) ->
         In (r2, a2) (combine (sorted rows) real) ->
         (affiliation_id a1 = affiliation_id a2
          <-> Affiliation r1 = Affiliation r2).
Proof.
  intros Hbuild. apply build_lists_registry in Hbuild.
  destruct Hbuild as (_ & _ & real & extra & -> & Hreal & _).
  exists real, extra. split; [reflexivity|]. split; [exact Hreal|].
  intros r1 a1 r2 a2 H1 H2.
  destruct (Forall2_combine_In _ _ _ _ _ Hreal H1) as [G1 S1].
  destruct (Forall2_combine_In _ _ _ _ _ Hreal H2) as [G2 S2].
  split.
  - intros Heq.
    destruct (affiliation_id a1) as [id|] eqn:E1; [|contradiction].
    rewrite <- Heq in G2. eapply get_id_same_id; eauto.
  - intros Heq. rewrite Heq in G1. congruence.
Qed.

Lemma author_ids_follow_affiliations_witness :
  let rows := [mkRow (lit "Zoe") (lit "Zed") (lit "CERN") [];
               mkRow (lit "Ann") (lit "Abe") (lit "LAL") [];
               mkRow (lit "Bob") (lit "Best") (lit "CERN") []] in
  exists al authors,
    build_lists default_options rows = Return (al, authors)
    /\ map affiliation_id authors
       = [Some (Letters (lit "a")); Some (Letters (lit "b"));
          Some (Letters (lit "b"))]
    /\ exists real extra, authors = real ++ extra.
Proof.
  intros rows.
  destruct (build_lists default_options rows) as [[al authors]|e] eqn:B;
    [|discriminate B].
  exists al, authors. split; [reflexivity|].
  destruct (author_ids_follow_affiliations default_options rows al authors B)
    as (real & extra & Hauthors & _).
  split; [|eauto].
  vm_compute in B. injection B as _ <-. reflexivity.
Defined.

(** ** The LaTeX file *)

Lemma affiliation_lines_value (al : AffiliationList) (affiliations : list str)
    (out part : str) :
  affiliation_lines al affiliations (Return out) = Return part ->
  exists lines,
    part = out ++ concat lines
    /\ Forall2 (fun a line =>
                  exists id, get_id al a = Return id
                             /\ line = affiliation_line_text id a)
               affiliations lines.
Proof.
  revert out. induction affiliations as [|a affiliations IH]; intros out.
  - intros [= <-]. exists []. simpl. now rewrite app_nil_r.
  - change (affiliation_lines al (a :: affiliations) (Return out))
      with (affiliation_lines al affiliations
              (line <- affiliation_line al a ;; Return (out ++ line))).
    unfold affiliation_line.
    destruct (get_id al a) as [id|] eqn:G; cbn [bind];
      [|now rewrite affiliation_lines_raised].
    fold (affiliation_line_text id a).
    destruct (write (affiliation_line_text id a)) as [line|] eqn:W;
      cbn [bind]; [|now rewrite affiliation_lines_raised].
    apply write_value in W. subst line.
    intros Hrest. apply IH in Hrest. destruct Hrest as (lines & -> & Hlines).
    exists (affiliation_line_text id a :: lines). split.
    + cbn [concat]. unfold affiliation_line_text. now rewrite <- !app_assoc.
    + constructor; eauto.
Qed.

Lemma affiliation_lines_ids (al : AffiliationList) (l : list str)
    (lines : list str) :
  (forall a, In a l -> In a (_list al)) ->
  Forall2 (fun a line =>
             exists id, get_id al a = Return id
                        /\ line = affiliation_line_text id a) l lines ->
  Forall2 (fun a line =>
             exists id, get_id al a = Return (Some id)
                        /\ line = affiliation_line_text (Some id) a) l lines.
Proof.
  intros Hall Hlines.
  induction Hlines as [|a line l lines (id & G & ->) Hrest IH]; constructor.
  - destruct (get_id_present al a id (Hall a (or_introl eq_refl)) G) as [i ->].
    eauto.
  - apply IH. intros a' Hin. apply Hall. now right.
Qed.

(** The LaTeX file holds the author lines, an empty line, then one
    affiliation line for every entry of the registry, in the order of the
    registry; each carries the ID of its affiliation and the affiliation as
    it stands in the row. *)
Theorem latex_file_lines `{Capitalize} `{FileSystem}
    (options : Options) (rows : list Row) (w : Written) :
  main_body options rows = Return w ->
  exists al authors lines,
    build_lists options rows = Return (al, authors)
    /\ latex_file w
       = (output_file options,
          concat (map author_line authors) ++ [nl] ++ concat lines)
    /\ Forall2 (fun a line =>
                  exists id, get_id al a = Return (Some id)
                             /\ line = affiliation_line_text (Some id) a)
               (_list al) lines.
Proof.
  unfold main_body.
  destruct (build_lists options rows) as [[al authors]|]; [|discriminate].
  cbn [bind].
  destruct (open_w (output_file options)); [|discriminate].
  cbn [bind]. unfold latex_text.
  destruct (author_lines authors (Return [])) as [ap|] eqn:A1; [|discriminate].
  apply author_lines_value in A1. subst ap.
  change (write [nl]) with (@Return str [nl]). cbn [bind].
  destruct (affiliation_lines _ _ _) as [part|] eqn:A; [|discriminate].
  cbn [bind].
  destruct (open_w (arxiv_output_file options)); [|discriminate].
  cbn [bind].
  destruct (write (arxiv_text options authors)) as [ax|]; [|discriminate].
  cbn [bind]. intros [= <-].
  apply affiliation_lines_value in A. destruct A as (lines & -> & Hlines).
  exists al, authors, lines. split; [reflexivity|]. split; [reflexivity|].
  apply affiliation_lines_ids; trivial.
Qed.

Lemma latex_file_lines_witness :
  let rows := [mkRow (lit "Ann") (lit "Abe") (lit "LAL") [];
               mkRow (lit "Bob") (lit "Best") (lit "CERN") []] in
  exists w al authors lines,
    main_body default_options rows = Return w
    /\ build_lists default_options rows = Return (al, authors)
    /\ latex_file w
       = (output_file default_options,
          concat (map author_line authors) ++ [nl] ++ concat lines)
    /\ length lines = length (_list al).
Proof.
  intros rows.
  destruct (main_body default_options rows) as [w|e] eqn:Hw; [|discriminate Hw].
  destruct (latex_file_lines default_options rows w Hw)
    as (al & authors & lines & Hb & Hl & Hlines).
  exists w, al, authors, lines. repeat split; trivial.
  symmetry. apply (Forall2_length Hlines).
Defined.

(** ** ORCID given *)

(** For a row with a non-empty ORCID field the author keeps it, and the
    author line ends with [\orcidlink{<ORCID>}] inside the braces of
    [\author], the field written as it stands. *)
Theorem orcid_written_as_orcidlink `{Capitalize} (options : Options)
    (affiliation_list : AffiliationList) (author_list : list Author)
    (row : Row) (state' : AffiliationList * list Author) :
  ORCID row <> [] ->
  process_author options (affiliation_list, author_list) row = Return state' ->
  exists author,
    snd state' = author_list ++ [author]
    /\ orcid author = Some (ORCID row)
    /\ author_line author
       = lit "\author[" ++ format_id (affiliation_id author) ++ lit "]{"
           ++ re_sub_space_tilde (name author)
           ++ (lit "\orcidlink{" ++ ORCID row ++ lit "}")
           ++ lit "}" ++ [nl].
Proof.
  intros Horcid Hstep. destruct state' as [al' authors'].
  apply process_author_appends in Hstep.
  destruct Hstep as (author & (nm & id & Hnm & -> & Hid) & ->).
  exists (Author_init nm (Some id) (Some (ORCID row))).
  destruct (ORCID row) as [|c o] eqn:E; [contradiction|].
  repeat split.
Qed.

Lemma orcid_written_as_orcidlink_witness :
  let row := mkRow (lit "Ann") (lit "Abe") (lit "CERN")
                   (lit "0000-0002-1825-0097") in
  exists author,
    author_line author
    = lit "\author[a]{Ann~Abe\orcidlink{0000-0002-1825-0097}}" ++ [nl].
Proof.
  intros row.
  destruct (process_author default_options (AffiliationList_init true, []) row)
    as [state'|e] eqn:Hstep; [|discriminate Hstep].
  destruct (orcid_written_as_orcidlink default_options
              (AffiliationList_init true) [] row state')
    as (author & Hlist & Horcid & Hline).
  - discriminate.
  - exact Hstep.
  - exists author. vm_compute in Hstep. injection Hstep as <-.
    simpl in Hlist. injection Hlist as <-. reflexivity.
Defined.

(** ** The dummy entry *)

(** With [--more-authors] the last author is the dummy entry and the last
    entry of the registry is its affiliation, appended without a look-up.
    The ID of the dummy entry is the one of the first entry equal to that
    affiliation: the one of the entry just appended when no row has this
    affiliation, and otherwise the one of the authors of such rows, the
    registry then holding the affiliation twice. *)
Theorem more_authors_entry `{Capitalize}
    (options : Options) (rows : list Row)
    (al : AffiliationList) (authors : list Author) :
  more_authors options = true ->
  build_lists options rows = Return (al, authors) ->
  exists real id,
    authors = real ++ [mkAuthor MORE_NAME (Some id) None]
    /\ length real = length rows
    /\ _list al
       = distinct (map Affiliation (sorted rows)) ++ [MORE_AFFILIATION]
    /\ get_id al MORE_AFFILIATION = Return (Some id)
    /\ (~ In MORE_AFFILIATION (map Affiliation rows) ->
        NoDup (_list al)
        /\ list_index MORE_AFFILIATION (_list al)
           = Some (length (distinct (map Affiliation (sorted rows)))))
    /\ (In MORE_AFFILIATION (map Affiliation rows) ->
        ~ NoDup (_list al)
        /\ exists p,
             list_index MORE_AFFILIATION (_list al) = Some p
             /\ (p < length (distinct (map Affiliation (sorted rows))))%nat).
Proof.
  intros Hmore Hbuild. apply build_lists_registry in Hbuild.
  rewrite Hmore in Hbuild.
  destruct Hbuild as (Hl & _ & real & extra & -> & Hreal & Hextra).
  destruct Hextra as [[Hf _]|(_ & id & Hid & ->)]; [congruence|].
  exists real, id. split; [reflexivity|].
  pose proof (sorted_perm rows) as Hperm.
  split.
  { rewrite <- (Forall2_length Hreal). symmetry.
    apply (Permutation_length Hperm). }
  split; [exact Hl|]. split; [exact Hid|].
  assert (Hiff : In MORE_AFFILIATION (map Affiliation rows)
                 <-> In MORE_AFFILIATION (distinct (map Affiliation (sorted rows)))).
  { rewrite distinct_In. split; apply Permutation_in.
    - now apply Permutation_map.
    - now apply Permutation_map, Permutation_sym. }
  rewrite Hl. split.
  - intros Hnin. rewrite Hiff in Hnin. split.
    + apply NoDup_app; [apply distinct_NoDup|repeat constructor; intros []|].
      intros a Ha [<-|[]]. contradiction.
    + now apply list_index_app_new.
  - intros Hin. rewrite Hiff in Hin. split.
    + intros Hnd. apply NoDup_remove_2 in Hnd. rewrite app_nil_r in Hnd.
      contradiction.
    + destruct (list_index MORE_AFFILIATION
                  (distinct (map Affiliation (sorted rows)))) as [p|] eqn:E.
      * exists p. split; [now apply list_index_app_old|].
        now apply list_index_lt in E.
      * apply list_index_None in E. contradiction.
Qed.

Lemma more_authors_entry_witness :
  let options :=
    mkOptions ARXIV_AUTHOR_FILE_DEFAULT ARXIV_AUTHORS_PREFIX_DEFAULT
              AUTHOR_FILE_DEFAULT true LATEX_AUTHOR_FILE_DEFAULT false
              true false in
  let rows := [mkRow (lit "Ann") (lit "Abe") (lit "Many more to come...") []] in
  exists al authors,
    build_lists options rows = Return (al, authors)
    /\ _list al = [MORE_AFFILIATION; MORE_AFFILIATION]
    /\ ~ NoDup (_list al).
Proof.
  intros options rows.
  destruct (build_lists options rows) as [[al authors]|e] eqn:B;
    [|discriminate B].
  exists al, authors. split; [reflexivity|].
  destruct (more_authors_entry options rows al authors eq_refl B)
    as (real & id & _ & _ & Hl & _ & _ & Hdup).
  split; [rewrite Hl; reflexivity|].
  apply Hdup. left. reflexivity.
Defined.

(** ** When [main] runs to its end *)

Section MainCompletes.

Context `{Capitalize} (options : Options).

Lemma get_id_returns_room al a :
  room al 0 -> exists r, get_id al a = Return r.
Proof.
  intros [Hnum|Hlen].
  - unfold get_id, derive_id. rewrite Hnum.
    destruct (list_index a (_list al)); cbn [bind]; eauto.
  - apply get_id_returns. lia.
Qed.

Lemma process_author_returns_room al authors row :
  (exists nm, display_name options row = Return nm) ->
  room al 1 ->
  exists al' authors',
    process_author options (al, authors) row = Return (al', authors')
    /\ (length (_list al') <= S (length (_list al)))%nat
    /\ _index_letter al' = _index_letter al.
Proof.
  intros [nm D] Hroom. unfold process_author.
  destruct (get_id_returns_room al (Affiliation row)) as [r G].
  { destruct Hroom as [Hn|Hl]; [now left|right; lia]. }
  rewrite G. cbn [bind]. destruct r as [id|].
  - rewrite D. cbn [bind fst snd]. eexists _, _.
    split; [reflexivity|]. split; [lia|reflexivity].
  - unfold add. cbv beta zeta iota.
    set (al2 := mkAffiliationList (_list al ++ [Affiliation row]) _).
    assert (Hlen2 : length (_list al2) = S (length (_list al)))
      by (simpl; rewrite length_app; simpl; lia).
    destruct (get_id_returns_room al2 (Affiliation row)) as [r2 G2].
    { destruct Hroom as [Hn|Hl]; [now left|right; lia]. }
    rewrite G2. cbn [bind]. rewrite D. cbn [bind fst snd].
    eexists _, _. split; [reflexivity|]. split; [lia|reflexivity].
Qed.

Lemma authors_loop_returns_room rows k al authors :
  (forall row, In row rows -> exists nm, display_name options row = Return nm) ->
  room al (length rows + k) ->
  exists al' authors',
    authors_loop options rows (Return (al, authors)) = Return (al', authors')
    /\ room al' k.
Proof.
  revert al authors. induction rows as [|row rows IH]; intros al authors Hnm Hroom.
  - exists al, authors. split; [reflexivity|exact Hroom].
  - change (authors_loop options (row :: rows) (Return (al, authors)))
      with (authors_loop options rows (process_author options (al, authors) row)).
    simpl in Hroom.
    destruct (process_author_returns_room al authors row)
      as (al1 & authors1 & -> & Hl1 & Hb1).
    + apply Hnm. now left.
    + destruct Hroom as [Hn|Hl]; [now left|right; lia].
    + apply IH.
      * intros r Hr. apply Hnm. now right.
      * destruct Hroom as [Hn|Hl]; [left; congruence|right; lia].
Qed.

Lemma add_more_authors_returns_room al authors :
  room al 1 ->
  exists al' authors',
    add_more_authors options (al, authors) = Return (al', authors')
    /\ room al' 0.
Proof.
  intros Hroom. unfold add_more_authors. destruct (more_authors options).
  - unfold add. cbv beta zeta iota.
    set (al2 := mkAffiliationList (_list al ++ [MORE_AFFILIATION]) _).
    assert (Hroom2 : room al2 0).
    { destruct Hroom as [Hn|Hl]; [now left|right].
      simpl. rewrite length_app. simpl. lia. }
    destruct (get_id_returns_room al2 MORE_AFFILIATION Hroom2) as [r ->].
    cbn [bind]. eexists _, _. split; [reflexivity|exact Hroom2].
  - exists al, authors. split; [reflexivity|].
    destruct Hroom as [Hn|Hl]; [now left|right; lia].
Qed.

Lemma display_name_returned row nm :
  display_name options row = Return nm ->
  use_initials options = true ->
  empty_token_input (Firstnames row) = false.
Proof.
  unfold display_name. intros D Hini. rewrite Hini in D.
  destruct (empty_token_input (Firstnames row)) eqn:E; [|reflexivity].
  apply re_split_space_empty_token in E.
  apply firstnames_to_initials_outcome in E. rewrite E in D. discriminate.
Qed.

Lemma initials_loop_raises_IndexError tokens acc e :
  fold_left initials_step tokens acc = Raise e ->
  acc = Raise e \/ e = IndexError.
Proof.
  revert acc. induction tokens as [|t tokens IH]; intros acc; simpl; [auto|].
  intros Hloop. apply IH in Hloop. destruct Hloop as [Hstep|]; [|auto].
  unfold initials_step in Hstep. destruct acc as [initials|e']; [|auto].
  cbn [bind] in Hstep. destruct (capitalize t); [|discriminate].
  injection Hstep as <-. now right.
Qed.

Lemma display_name_raises_IndexError row e :
  display_name options row = Raise e -> e = IndexError.
Proof.
  unfold display_name. destruct (use_initials options); [|discriminate].
  unfold firstnames_to_initials.
  destruct (fold_left _ _ _) eqn:E; cbn [bind]; [discriminate|].
  intros [= <-]. apply initials_loop_raises_IndexError in E.
  destruct E; [discriminate|assumption].
Qed.

Lemma process_author_room al authors row :
  room al 1 ->
  (exists al' authors',
     process_author options (al, authors) row = Return (al', authors')
     /\ (length (_list al') <= S (length (_list al)))%nat
     /\ _index_letter al' = _index_letter al)
  \/ process_author options (al, authors) row = Raise IndexError.
Proof.
  intros Hroom.
  destruct (display_name options row) as [nm|e] eqn:D.
  - left. apply process_author_returns_room; eauto.
  - right. apply display_name_raises_IndexError in D as He. subst e.
    unfold process_author.
    destruct (get_id_returns_room al (Affiliation row)) as [r G].
    { destruct Hroom as [Hn|Hl]; [now left|right; lia]. }
    rewrite G. cbn [bind]. destruct r as [id|].
    + now rewrite D.
    + unfold add. cbv beta zeta iota.
      set (al2 := mkAffiliationList (_list al ++ [Affiliation row]) _).
      destruct (get_id_returns_room al2 (Affiliation row)) as [r2 G2].
      { destruct Hroom as [Hn|Hl]; [now left|right].
        simpl. rewrite length_app. simpl. lia. }
      rewrite G2. cbn [bind]. now rewrite D.
Qed.

Lemma authors_loop_room rows k al authors :
  room al (length rows + k) ->
  (exists al' authors',
     authors_loop options rows (Return (al, authors)) = Return (al', authors')
     /\ room al' k)
  \/ authors_loop options rows (Return (al, authors)) = Raise IndexError.
Proof.
  revert al authors. induction rows as [|row rows IH]; intros al authors Hroom.
  - left. exists al, authors. split; [reflexivity|exact Hroom].
  - change (authors_loop options (row :: rows) (Return (al, authors)))
      with (authors_loop options rows (process_author options (al, authors) row)).
    simpl in Hroom.
    destruct (process_author_room al authors row)
      as [(al1 & authors1 & -> & Hl1 & Hb1)| ->].
    + destruct Hroom as [Hn|Hl]; [now left|right; lia].
    + apply IH.
      destruct Hroom as [Hn|Hl]; [left; congruence|right; lia].
    + right. apply authors_loop_raised.
Qed.

End MainCompletes.

(** *** What is written can be encoded *)

Lemma encodable_forall (s : str) :
  encodable s = true <-> forall c, In c s -> is_surrogate c = false.
Proof.
  unfold encodable. rewrite negb_true_iff. split.
  - intros Hs c Hin. destruct (is_surrogate c) eqn:E; [|reflexivity].
    assert (Hex : existsb is_surrogate s = true)
      by (apply existsb_exists; eauto).
    congruence.
  - intros Hall. destruct (existsb is_surrogate s) eqn:E; [|reflexivity].
    apply existsb_exists in E. destruct E as (c & Hin & Hc).
    rewrite (Hall c Hin) in Hc. discriminate.
Qed.

Lemma encodable_app (s t : str) :
  encodable (s ++ t) = encodable s && encodable t.
Proof. unfold encodable. now rewrite existsb_app, negb_orb. Qed.

Lemma encodable_app_intro (s t : str) :
  encodable s = true -> encodable t = true -> encodable (s ++ t) = true.
Proof. intros Hs Ht. now rewrite encodable_app, Hs, Ht. Qed.

(** Splits the goal that a concatenation is encodable into its pieces. *)
Ltac encodable_pieces :=
  repeat match goal with
         | |- encodable (_ ++ _) = true => apply encodable_app_intro
         end;
  try assumption; try reflexivity.

Lemma encodable_incl (s t : str) :
  (forall c, In c s -> In c t) -> encodable t = true -> encodable s = true.
Proof. rewrite !encodable_forall. auto. Qed.

Lemma is_surrogate_below (c : char) : c < 0xD800 -> is_surrogate c = false.
Proof.
  intros Hc. unfold is_surrogate. apply andb_false_iff. left.
  apply Z.leb_gt. exact Hc.
Qed.

Lemma lstrip_In (s : str) (c : char) : In c (lstrip s) -> In c s.
Proof.
  induction s as [|x s IH]; simpl; [tauto|].
  destruct (is_space x); [auto|]. simpl. tauto.
Qed.

Lemma strip_In (s : str) (c : char) : In c (strip s) -> In c s.
Proof.
  unfold strip. intros Hin. apply in_rev in Hin. apply lstrip_In in Hin.
  apply in_rev in Hin. now apply lstrip_In in Hin.
Qed.

Lemma re_split_space_chars (s : str) :
  forall t c, In t (re_split_space s) -> In c t -> In c s.
Proof.
  induction s as [|x s IH]; simpl; intros t c.
  - intros [<-|[]] [].
  - destruct (is_space x).
    + intros [<-|Hin]; [intros []|]. intros Hc. right. now apply (IH t).
    + destruct (re_split_space s) as [|t0 ts]; simpl.
      * intros [<-|[]] [<-|[]]. now left.
      * intros [<-|Hin].
        -- intros [<-|Hc]; [now left|]. right. apply (IH t0 c); [now left|exact Hc].
        -- intros Hc. right. apply (IH t c); [now right|exact Hc].
Qed.

Lemma re_sub_space_tilde_encodable (s : str) :
  encodable s = true -> encodable (re_sub_space_tilde s) = true.
Proof.
  rewrite !encodable_forall. intros Hs c Hin.
  apply re_sub_space_tilde_In in Hin. destruct Hin as [->|Hin]; [reflexivity|].
  now apply Hs.
Qed.

Lemma join_encodable (sep : str) (l : list str) :
  encodable sep = true -> Forall (fun x => encodable x = true) l ->
  encodable (join sep l) = true.
Proof.
  intros Hsep. induction 1 as [|x l Hx Hl IH]; [reflexivity|].
  destruct l as [|y l]; [exact Hx|].
  change (join sep (x :: y :: l)) with (x ++ sep ++ join sep (y :: l)).
  encodable_pieces.
Qed.

Lemma derive_id_encodable (index_letter : bool) (p : Z) (id : index) :
  0 <= p -> index_letter = false \/ p < 1435200 ->
  derive_id index_letter p = Return id ->
  encodable (format_id (Some id)) = true.
Proof.
  intros Hp Hb D. apply encodable_forall. intros c Hin.
  apply is_surrogate_below. revert D Hin. unfold derive_id.
  destruct index_letter.
  - destruct Hb as [Hb|Hb]; [discriminate|].
    cbv zeta. unfold ord_a.
    assert (Hh : 0 <= p / 26 < 55200).
    { split; [apply Z.div_pos; lia|apply Z.div_lt_upper_bound; lia]. }
    assert (Hm : 0 <= p mod 26 < 26) by (apply Z.mod_pos_bound; lia).
    destruct (0 <? p / 26).
    + destruct (chr (97 + p / 26 - 1)) as [h|] eqn:Eh; [|discriminate].
      destruct (chr (97 + p mod 26)) as [l|] eqn:El; [|discriminate].
      apply chr_value in Eh, El. simpl. intros [= <-]. simpl.
      intros [<-|[<-|[]]]; lia.
    + destruct (chr (97 + p mod 26)) as [l|] eqn:El; [|discriminate].
      apply chr_value in El. simpl. intros [= <-]. simpl.
      intros [<-|[]]; lia.
  - intros [= <-]. simpl. intros Hin.
    apply str_of_int_chars in Hin; lia.
Qed.

Lemma get_id_encodable (al : AffiliationList) (a : str) (r : option index) :
  id_room al 0 -> get_id al a = Return r -> encodable (format_id r) = true.
Proof.
  intros Hroom. unfold get_id.
  destruct (list_index a (_list al)) as [p|] eqn:E; [|now intros [= <-]].
  apply list_index_lt in E.
  destruct (derive_id _ _) as [id|] eqn:D; [|discriminate].
  cbn [bind]. intros [= <-].
  apply (derive_id_encodable _ _ _ (Nat2Z.is_nonneg p)) in D; [exact D|].
  destruct Hroom as [Hn|Hl]; [now left|right; lia].
Qed.

Lemma id_room_room (al : AffiliationList) (n : nat) : id_room al n -> room al n.
Proof. intros [Hn|Hl]; [now left|right; lia]. Qed.

Lemma id_room_less (al : AffiliationList) (n m : nat) :
  (m <= n)%nat -> id_room al n -> id_room al m.
Proof. intros Hle [Hn|Hl]; [now left|right; lia]. Qed.

Section MainEncodes.

Context `{Capitalize} (options : Options).

Hypothesis capitalize_encodable :
  forall t, encodable t = true -> encodable (initial_of t) = true.

Lemma firstnames_to_initials_encodable firstnames initials :
  encodable firstnames = true ->
  firstnames_to_initials firstnames = Return initials ->
  encodable initials = true.
Proof.
  intros Hs Hret.
  destruct (in_dec str_eq_dec [] (re_split_space firstnames)) as [Hin|Hnin].
  { apply firstnames_to_initials_outcome in Hin. congruence. }
  unfold firstnames_to_initials in Hret.
  rewrite (initials_loop_value _ [] Hnin) in Hret. cbn [bind app] in Hret.
  injection Hret as <-.
  apply encodable_forall. intros c Hc. apply strip_In in Hc.
  apply in_concat in Hc. destruct Hc as (piece & Hpiece & Hc).
  apply in_map_iff in Hpiece. destruct Hpiece as (t & <- & Ht).
  assert (Het : encodable t = true).
  { apply (encodable_incl t firstnames); [|exact Hs].
    intros x. now apply re_split_space_chars. }
  apply capitalize_encodable in Het.
  rewrite encodable_forall in Het. now apply Het.
Qed.

Lemma display_name_encodable row nm :
  row_encodable row = true ->
  display_name options row = Return nm ->
  encodable nm = true.
Proof.
  unfold row_encodable. rewrite !andb_true_iff.
  intros [[[Hf Hl] _] _]. unfold display_name.
  destruct (use_initials options).
  - destruct (firstnames_to_initials (Firstnames row)) as [ini|] eqn:E;
      [|discriminate].
    cbn [bind]. intros [= <-].
    apply firstnames_to_initials_encodable in E; [|exact Hf].
    encodable_pieces.
  - intros [= <-]. encodable_pieces.
Qed.

Lemma author_line_encodable nm id o :
  encodable nm = true -> encodable (format_id id) = true ->
  encodable o = true ->
  encodable (author_line (Author_init nm id (Some o))) = true
  /\ encodable (author_line (Author_init nm id None)) = true.
Proof.
  intros Hnm Hid Ho. apply re_sub_space_tilde_encodable in Hnm.
  unfold author_line, orcid_link. cbv zeta.
  split; [destruct o as [|c o']|]; cbn [Author_init orcid name affiliation_id];
    encodable_pieces.
Qed.

Lemma process_author_good al authors row al' authors' :
  good_state al authors -> id_room al 1 -> row_encodable row = true ->
  process_author options (al, authors) row = Return (al', authors') ->
  good_state al' authors' /\ id_room al' 0
  /\ (length (_list al') <= S (length (_list al)))%nat
  /\ _index_letter al' = _index_letter al.
Proof.
  intros [Hreg Hauthors] Hroom Hrow Hstep.
  pose proof (process_author_registry options _ _ _ _ _ Hstep)
    as (Hl & Hb & author & -> & Hid & Hsome).
  pose proof (process_author_appends options _ _ _ _ _ Hstep)
    as (author' & (nm & id & Hnm & -> & _) & Heq).
  apply app_inj_tail in Heq. destruct Heq as [_ ->].
  assert (Hlen : (length (_list al') <= S (length (_list al)))%nat).
  { rewrite Hl. unfold register.
    destruct (in_dec str_eq_dec _ _); [lia|]. rewrite length_app. simpl. lia. }
  assert (Hroom' : id_room al' 0).
  { destruct Hroom as [Hn|Hlt]; [left; congruence|right; lia]. }
  assert (Haff : encodable (Affiliation row) = true).
  { unfold row_encodable in Hrow. rewrite !andb_true_iff in Hrow. tauto. }
  assert (Horc : encodable (ORCID row) = true).
  { unfold row_encodable in Hrow. rewrite !andb_true_iff in Hrow. tauto. }
  split; [|auto]. split.
  - rewrite Hl. unfold register.
    destruct (in_dec str_eq_dec _ _); [exact Hreg|].
    apply Forall_app. split; [exact Hreg|]. now constructor.
  - apply Forall_app. split; [exact Hauthors|]. constructor; [|constructor].
    assert (Hname : encodable nm = true)
      by now apply (display_name_encodable row).
    assert (Hidt : encodable (format_id (Some id)) = true)
      by now apply (get_id_encodable al' (Affiliation row)).
    split.
    + exact (proj1 (author_line_encodable nm (Some id) (ORCID row)
                      Hname Hidt Horc)).
    + destruct (ORCID row); exact Hname.
Qed.

Lemma authors_loop_good rows k al authors al' authors' :
  good_state al authors -> id_room al (length rows + k) ->
  Forall (fun row => row_encodable row = true) rows ->
  authors_loop options rows (Return (al, authors)) = Return (al', authors') ->
  good_state al' authors' /\ id_room al' k.
Proof.
  revert al authors. induction rows as [|row rows IH];
    intros al authors Hgood Hroom Hrows.
  - intros [= <- <-]. now split.
  - change (authors_loop options (row :: rows) (Return (al, authors)))
      with (authors_loop options rows (process_author options (al, authors) row)).
    destruct (process_author options (al, authors) row)
      as [[al1 authors1]|e] eqn:P; [|now rewrite authors_loop_raised].
    inversion Hrows as [|? ? Hrow Hrest]; subst. simpl in Hroom.
    destruct (process_author_good al authors row al1 authors1)
      as (Hgood1 & _ & Hlen & Hb); trivial.
    { eapply id_room_less; [|exact Hroom]. lia. }
    apply IH; trivial.
    destruct Hroom as [Hn|Hlt]; [left; congruence|right; lia].
Qed.

Lemma add_more_authors_good al authors al' authors' :
  good_state al authors -> id_room al 1 ->
  add_more_authors options (al, authors) = Return (al', authors') ->
  good_state al' authors' /\ id_room al' 0.
Proof.
  intros [Hreg Hauthors] Hroom Hmore.
  destruct (more_authors options) eqn:E.
  - apply add_more_authors_value in Hmore; [|exact E].
    destruct Hmore as (Hl & Hb & id & Hid & ->).
    assert (Hroom' : id_room al' 0).
    { destruct Hroom as [Hn|Hlt]; [left; congruence|right].
      rewrite Hl, length_app. simpl. lia. }
    split; [|exact Hroom']. split.
    + rewrite Hl. apply Forall_app. split; [exact Hreg|]. now constructor.
    + apply Forall_app. split; [exact Hauthors|]. constructor; [|constructor].
      assert (Hidt : encodable (format_id (Some id)) = true)
        by now apply (get_id_encodable al' MORE_AFFILIATION).
      split; [|reflexivity].
      exact (proj2 (author_line_encodable MORE_NAME (Some id) []
                      eq_refl Hidt eq_refl)).
  - unfold add_more_authors in Hmore. rewrite E in Hmore.
    injection Hmore as <- <-. split; [now split|].
    eapply id_room_less; [|exact Hroom]. lia.
Qed.

End MainEncodes.

Lemma author_lines_returns (authors : list Author) (out : str) :
  Forall (fun author => encodable (author_line author) = true
                        /\ encodable (name author) = true) authors ->
  author_lines authors (Return out)
  = Return (out ++ concat (map author_line authors)).
Proof.
  intros Hall. revert out.
  induction Hall as [|a authors [Ha _] Hrest IH]; intros out.
  - simpl. now rewrite app_nil_r.
  - change (author_lines (a :: authors) (Return out))
      with (author_lines authors
              (line <- write (author_line a) ;; Return (out ++ line))).
    rewrite (write_encodable _ Ha). cbn [bind]. rewrite IH.
    cbn [map concat]. now rewrite <- app_assoc.
Qed.

Lemma affiliation_lines_returns_encodable (al : AffiliationList)
    (affiliations : list str) (out : str) :
  id_room al 0 ->
  Forall (fun a => encodable a = true) affiliations ->
  exists part, affiliation_lines al affiliations (Return out) = Return part.
Proof.
  intros Hroom Hall. revert out.
  induction Hall as [|a affiliations Ha Hrest IH]; intros out.
  - exists out. reflexivity.
  - change (affiliation_lines al (a :: affiliations) (Return out))
      with (affiliation_lines al affiliations
              (line <- affiliation_line al a ;; Return (out ++ line))).
    unfold affiliation_line.
    destruct (get_id_returns_room al a (id_room_room _ _ Hroom)) as [r G].
    rewrite G. cbn [bind].
    rewrite write_encodable.
    + cbn [bind]. apply IH.
    + pose proof (get_id_encodable al a r Hroom G) as Hr.
      encodable_pieces.
Qed.

Lemma arxiv_text_encodable (options : Options) (authors : list Author) :
  Forall (fun author => encodable (author_line author) = true
                        /\ encodable (name author) = true) authors ->
  encodable (arxiv_text options authors) = true.
Proof.
  intros Hall. unfold arxiv_text.
  encodable_pieces.
  apply join_encodable; [reflexivity|].
  induction Hall as [|a authors [_ Ha] Hrest IH]; constructor; trivial.
Qed.

(** For rows of four cells without a surrogate (the rows a file decoded
    as UTF-8 gives), when both output files open and the initial of a token
    without a surrogate has none: in number mode, or in letter mode with
    fewer than 26 * (0xD800 - 96) rows, [main] writes its two files exactly
    when initials are not asked for or the first-names field of every row
    cuts into non-empty tokens; otherwise it stops on an [IndexError]. *)
Theorem main_completes_iff `{Capitalize} `{FileSystem}
    (options : Options) (rows : list Row) :
  open_w (output_file options) = Return tt ->
  open_w (arxiv_output_file options) = Return tt ->
  (forall row, In row rows -> row_encodable row = true) ->
  (forall t, encodable t = true -> encodable (initial_of t) = true) ->
  affiliation_numbers options = true \/ Z.of_nat (length rows) < 1435200 ->
  ((exists w, main_body options rows = Return w)
   <-> (use_initials options = true ->
        forall row, In row rows -> empty_token_input (Firstnames row) = false))
  /\ ((exists w, main_body options rows = Return w)
      \/ main_body options rows = Raise IndexError).
Proof.
  intros Hopen1 Hopen2 Hrows Hcap Hmode.
  pose proof (sorted_perm rows) as Hperm.
  set (al0 := AffiliationList_init (negb (affiliation_numbers options))).
  assert (Hroom0 : id_room al0 (length (sorted rows) + 1)).
  { destruct Hmode as [Hnum|Hlen].
    - left. simpl. now rewrite Hnum.
    - right. rewrite <- (Permutation_length Hperm). simpl. lia. }
  assert (Hsorted : Forall (fun row => row_encodable row = true) (sorted rows)).
  { apply Forall_forall. intros row Hin. apply Hrows.
    now apply (Permutation_in _ (Permutation_sym Hperm)). }
  assert (Hgood0 : good_state al0 []) by (split; constructor).
  (* once the loop has returned, the rest of [main] runs to its end *)
  assert (Hrest : forall al authors,
            authors_loop options (sorted rows) (Return (al0, [])) = Return (al, authors) ->
            exists w, main_body options rows = Return w).
  { intros al authors L.
    destruct (authors_loop_good options Hcap _ 1 _ _ _ _ Hgood0 Hroom0 Hsorted L)
      as [Hgood Hroom].
    unfold main_body, build_lists. cbv zeta. fold al0. rewrite L. cbn [bind].
    destruct (add_more_authors_returns_room options al authors
                (id_room_room _ _ Hroom)) as (al' & authors' & M & _).
    rewrite M. cbn [bind].
    destruct (add_more_authors_good options _ _ _ _ Hgood Hroom M)
      as [[Hreg Hauthors] Hroom'].
    rewrite Hopen1. cbn [bind]. unfold latex_text.
    match goal with
    | |- context [author_lines ?a ?o] =>
        replace (author_lines a o)
          with (@Return str (concat (map author_line a)))
          by (symmetry; exact (author_lines_returns a [] Hauthors))
    end.
    cbn [bind].
    change (write [nl]) with (@Return str [nl]). cbn [bind].
    edestruct (affiliation_lines_returns_encodable al' (_list al'))
      as [part Hpart]; [exact Hroom'|exact Hreg|rewrite Hpart].
    cbn [bind]. rewrite Hopen2. cbn [bind].
    rewrite (write_encodable _ (arxiv_text_encodable options _ Hauthors)).
    cbn [bind]. eauto. }
  assert (Hiff : (exists w, main_body options rows = Return w)
            <-> (use_initials options = true ->
                 forall row, In row rows ->
                             empty_token_input (Firstnames row) = false)).
  { split.
    - intros [w Hw] Hini row Hin.
      apply main_body_writes in Hw.
      destruct Hw as (al & authors & part & Hbuild & _).
      apply build_lists_authors in Hbuild.
      destruct Hbuild as (real & extra & _ & Hreal & _).
      apply (Permutation_in _ Hperm) in Hin.
      destruct (Forall2_In_l _ _ _ _ Hreal Hin) as (author & nm & id & D & _).
      eapply display_name_returned; eauto.
    - intros Hgood.
      destruct (authors_loop_returns_room options (sorted rows) 1 al0 [])
        as (al & authors & L & _).
      + intros row Hin. apply display_name_returns. intros Hini.
        rewrite re_split_space_empty_token.
        rewrite (Hgood Hini row); [discriminate|].
        now apply (Permutation_in _ (Permutation_sym Hperm)).
      + now apply id_room_room.
      + now apply (Hrest al authors). }
  split; [exact Hiff|].
  destruct (authors_loop_room options (sorted rows) 1 al0 [])
    as [(al & authors & L & _)|L].
  - now apply id_room_room.
  - left. now apply (Hrest al authors).
  - right. unfold main_body, build_lists. cbv zeta. fold al0. now rewrite L.
Qed.

Lemma main_completes_iff_witness :
  let options :=
    mkOptions ARXIV_AUTHOR_FILE_DEFAULT ARXIV_AUTHORS_PREFIX_DEFAULT
              AUTHOR_FILE_DEFAULT false LATEX_AUTHOR_FILE_DEFAULT true
              true true in
  let rows := [mkRow (lit "Marie Anne") (lit "Abe") (lit "LAL") [];
               mkRow (lit "Bob") (lit "Best") (lit "CERN") []] in
  exists w, main_body options rows = Return w.
Proof.
  intros options rows.
  destruct (main_completes_iff options rows) as [[_ Hret] _].
  - reflexivity.
  - reflexivity.
  - intros row [<-|[<-|[]]]; reflexivity.
  - intros t Ht. unfold initial_of. cbn [capitalize ascii_Capitalize].
    destruct t as [|c r]; [reflexivity|]. cbn [ascii_capitalize].
    rewrite encodable_forall in Ht.
    apply encodable_forall. intros x [<-|[<-|[]]]; [|reflexivity].
    pose proof (Ht c (or_introl eq_refl)) as Hc. unfold ascii_upper.
    destruct ((97 <=? c) && (c <=? 122)) eqn:E; [|exact Hc].
    apply andb_true_iff in E. destruct E as [E1 E2].
    apply Z.leb_le in E1, E2. apply is_surrogate_below. lia.
  - left. reflexivity.
  - apply Hret. intros _ row [<-|[<-|[]]]; reflexivity.
Defined.


(** ** An ID that cannot be written *)

(** In letter mode the ID of a registry position from 26 * (0xD800 - 96)
    up to 26 * (0xE000 - 96) - 1 begins with a surrogate, and [write]
    refuses the author line that carries it with [UnicodeEncodeError],
    whatever the name and the ORCID. *)
Theorem surrogate_id_not_written (p : Z) (id : index) (nm : str)
    (o : option str) :
  1435200 <= p < 1488448 ->
  derive_id true p = Return id ->
  write (author_line (mkAuthor nm (Some id) o)) = Raise UnicodeEncodeError.
Proof.
  intros Hp D.
  assert (Hh : 55200 <= p / 26 < 57248).
  { split; [apply Z.div_le_lower_bound; lia|apply Z.div_lt_upper_bound; lia]. }
  assert (Hid : exists l, id = Letters [97 + p / 26 - 1; l]).
  { revert D. unfold derive_id. cbv zeta. unfold ord_a.
    replace (0 <? p / 26) with true by (symmetry; apply Z.ltb_lt; lia).
    destruct (chr (97 + p / 26 - 1)) as [h|] eqn:Eh; [|discriminate].
    destruct (chr (97 + p mod 26)) as [l|] eqn:El; [|discriminate].
    apply chr_value in Eh. subst h. cbn. intros [= <-]. eauto. }
  destruct Hid as [l ->].
  unfold write.
  replace (existsb is_surrogate (author_line (mkAuthor nm (Some (Letters [97 + p / 26 - 1; l])) o)))
    with true; [reflexivity|].
  symmetry. apply existsb_exists. exists (97 + p / 26 - 1). split.
  - unfold author_line. cbv zeta. cbn [affiliation_id format_id].
    apply in_or_app. right. apply in_or_app. left. now left.
  - unfold is_surrogate. apply andb_true_iff.
    split; apply Z.leb_le; lia.
Qed.

Lemma surrogate_id_not_written_witness :
  write (author_line (mkAuthor (lit "Ann Abe")
                               (Some (Letters [55296; 97])) None))
  = Raise UnicodeEncodeError.
Proof.
  apply (surrogate_id_not_written 1435200 (Letters [55296; 97])
           (lit "Ann Abe") None).
  - lia.
  - reflexivity.
Defined.
